(** * The world map registry of the Illarion server (src/WorldMap.cpp)

    A shallow embedding of [WorldMap]: the vector of registered maps, the
    position dictionary, the resumable aging sweep, the text export and the
    binary snapshot, with the properties the specification states of them. *)

From Stdlib Require Import ZArith List Ascii String Lia DecimalString.
From Stdlib Require DecimalPos DecimalZ.
From stdpp Require Import gmap strings list fin_maps.

#[local] Open Scope Z_scope.
#[local] Set Default Proof Using "Type".

(** ** Machine integers

    A signed integer type of [bits] bits holds the values
    [smin bits .. smax bits]; storing a wider value keeps it modulo
    [2^bits] ([wrap]).  An unsigned type of [bits] bits keeps a value
    modulo [2^bits] ([uwrap]). *)

Definition smax (bits : Z) : Z := 2 ^ (bits - 1) - 1.
Definition smin (bits : Z) : Z := - 2 ^ (bits - 1).
Definition wrap (bits v : Z) : Z := (v + 2 ^ (bits - 1)) mod 2 ^ bits - 2 ^ (bits - 1).
Definition uwrap (bits v : Z) : Z := v mod 2 ^ bits.

Definition in_signed (bits v : Z) : Prop := smin bits <= v <= smax bits.

(** [for (i = lo; i <= hi; ++i) body(i)] with a counter of a signed type of
    [bits] bits: the increment wraps around. [fuel] bounds the number of
    iterations; [None] is a loop that has not ended within it. *)
Fixpoint for_le {S : Type} (bits : Z) (fuel : nat) (i hi : Z)
    (body : Z -> S -> option S) (s : S) : option S :=
  if i <=? hi then
    match fuel with
    | O => None
    | Datatypes.S fuel' =>
        match body i s with
        | Some s' => for_le bits fuel' (wrap bits (i + 1)) hi body s'
        | None => None
        end
    end
  else Some s.

(** The integers [lo, lo+1, ..., lo+n-1]. *)
Fixpoint zrange (lo : Z) (n : nat) : list Z :=
  match n with
  | O => []
  | Datatypes.S n' => lo :: zrange (lo + 1) n'
  end.

(** The loop as a fold over the values of its counter. *)
Fixpoint fold_opt {S : Type} (body : Z -> S -> option S) (l : list Z) (s : S) : option S :=
  match l with
  | [] => Some s
  | i :: l' =>
      match body i s with
      | Some s' => fold_opt body l' s'
      | None => None
      end
  end.

(** ** Data model *)

(** The address of a [Map] object. [map_t] is [std::shared_ptr<Map>]: the
    null reference or the address of a live object; [==] on it compares
    addresses. *)
Definition ptr := positive.
Definition map_t := option ptr.

(** Modelled from the spec: [position] is declared outside the sources; it
    is the integer triple (x, y, z), compared by value (section 3). *)
Record position := mk_position { pos_x : Z; pos_y : Z; pos_z : Z }.

#[global] Instance position_eq_dec : EqDecision position.
Proof. solve_decision. Defined.

#[global] Instance position_countable : Countable position.
Proof.
  refine (inj_countable' (fun p => (pos_x p, pos_y p, pos_z p))
                         (fun t => mk_position t.1.1 t.1.2 t.2) _).
  by intros [].
Defined.

(** Modelled from the spec: [MAP_POSITION], declared outside the sources, is
    a corner (x, y) of the rectangle of a region query (section 4.1). *)
Record MAP_POSITION := mk_MAP_POSITION { mp_x : Z; mp_y : Z }.

(** Modelled from the spec: an item as the exporter reads it (section 6):
    id, quality and the entries of its data map in iteration order. *)
Record Item := mk_Item {
  getId : Z;
  getQuality : Z;
  getData : list (string * string)
}.

(** Modelled from the spec: the field snapshot of section 6: tile code,
    music id, warp flag with warp target, and the exportable items. *)
Record Field := mk_Field {
  getTileCode : Z;
  getMusicId : Z;
  GetWarpField : option position;   (* [IsWarpField] and its target *)
  giveExportItems : list Item
}.

(** Modelled from the spec: Map.hpp is not among the sources. A [Map] has
    its bounds, its z-level, its width and height (section 3) and a cell
    accessor that reports whether a cell has content and yields the field
    (section 6). *)
Record Map := mk_Map {
  Min_X : Z; Max_X : Z;
  Min_Y : Z; Max_Y : Z;
  Z_Level : Z;
  Width : Z; Height : Z;
  GetCFieldAt : Z -> Z -> option Field
}.

(** Modelled from the spec: the accessors of the bounds return the
    fields. *)
Definition GetMinX (m : Map) : Z := Min_X m.
Definition GetMinY (m : Map) : Z := Min_Y m.
Definition GetMaxX (m : Map) : Z := Max_X m.
Definition GetMaxY (m : Map) : Z := Max_Y m.
Definition GetWidth (m : Map) : Z := Width m.
Definition GetHeight (m : Map) : Z := Height m.

(** The registry: the vector [maps], the dictionary [world_map] and the
    cursor [ageIndex] of the aging sweep. [InsertMap] stores non-null
    references only, so the elements are addresses. *)
Record WorldMap := mk_WorldMap {
  maps : list ptr;
  world_map : gmap position ptr;
  ageIndex : nat
}.

(** Modelled from the spec: the registry before any call, with nothing
    registered and the cursor at 0 (section 4.2); the initial values are
    set in WorldMap.hpp, which is not among the sources. *)
Definition empty_WorldMap : WorldMap :=
  {| maps := []; world_map := ∅; ageIndex := 0 |}.

(** ** Strings

    A [std::string] is a [string]; [+] is [+:+]. *)

(** [s.c_str()] read as a C string: the characters before the first NUL. *)
Fixpoint c_str (s : string) : string :=
  match s with
  | EmptyString => EmptyString
  | String c s' => if Ascii.eqb c zero then EmptyString else String c (c_str s')
  end.

(** [std::to_string], [operator<<] and [%d] on an integer: its decimal
    digits, with a leading [-] when negative. *)
Definition to_string (z : Z) : string := NilZero.string_of_int (Z.to_int z).

Definition spaces (n : nat) : string := string_of_list_ascii (repeat " "%char n).

(** [%6d]: the decimal digits, right-aligned in a field of at least six
    characters, padded with spaces on the left. *)
Definition pad6 (z : Z) : string :=
  spaces (6 - String.length (to_string z)) +:+ to_string z.

(** [std::endl] as it reaches the file. *)
Definition endl : string := String "010"%char EmptyString.

(** [boost::algorithm::replace_all(s, search, format)]: every occurrence of
    [search] in [s], leftmost first and not overlapping, becomes [format];
    inserted text is not searched again. [skip] counts the characters of a
    match still to be dropped. [search] is not empty. *)
Fixpoint replace_all_from (skip : nat) (search format s : string) : string :=
  match s with
  | EmptyString => EmptyString
  | String c s' =>
      match skip with
      | Datatypes.S k => replace_all_from k search format s'
      | O =>
          if String.prefix search s
          then format +:+ replace_all_from (String.length search - 1) search format s'
          else String c (replace_all_from 0 search format s')
      end
  end.

Definition replace_all (s search format : string) : string :=
  replace_all_from 0 search format s.

(** The three replacements [exportTo] applies to a key and to a value. *)
Definition escape (s : string) : string :=
  let s1 := replace_all s "\" "\\" in
  let s2 := replace_all s1 "=" "\=" in
  replace_all s2 ";" "\;".

(** What an escaped text is made of: a character other than the three
    special ones, or a backslash followed by one of them. *)
Definition special (c : ascii) : bool :=
  Ascii.eqb c "\"%char || Ascii.eqb c "="%char || Ascii.eqb c ";"%char.

Definition escape_char (c : ascii) : string :=
  if special c then String "\"%char (String c EmptyString) else String c EmptyString.

(** Each character of [s] replaced by the text [f] gives for it. *)
Fixpoint string_flat_map (f : ascii -> string) (s : string) : string :=
  match s with
  | EmptyString => EmptyString
  | String c s' => f c +:+ string_flat_map f s'
  end.

(** One replacement of a single character: [a] becomes [format]. *)
Definition subst_char (a : ascii) (format : string) (c : ascii) : string :=
  if Ascii.eqb c a then format else String c EmptyString.

(** [well_escaped s]: [s] reads, left to right, as such pieces: no special
    character stands outside an escape sequence. [esc] tells that the
    character before was the backslash that opens one. *)
Fixpoint escaped_from (esc : bool) (s : string) : bool :=
  match s with
  | EmptyString => negb esc
  | String c s' =>
      if esc then special c && escaped_from false s'
      else if Ascii.eqb c "\"%char then escaped_from true s'
      else negb (special c) && escaped_from false s'
  end.

Definition well_escaped (s : string) : bool := escaped_from false s.

(** The reader's side: drop the backslash of each escape sequence. *)
Fixpoint unescape_from (esc : bool) (s : string) : string :=
  match s with
  | EmptyString => EmptyString
  | String c s' =>
      if esc then String c (unescape_from false s')
      else if Ascii.eqb c "\"%char then unescape_from true s'
      else String c (unescape_from false s')
  end.

Definition unescape (s : string) : string := unescape_from false s.

(** Cutting a text at each separator [sep] that is not escaped; [cur] is
    the piece read so far. *)
Fixpoint split_from (sep : ascii) (esc : bool) (cur s : string) : list string :=
  match s with
  | EmptyString => [cur]
  | String c s' =>
      if esc then split_from sep false (cur +:+ String c EmptyString) s'
      else if Ascii.eqb c "\"%char then split_from sep true (cur +:+ String c EmptyString) s'
      else if Ascii.eqb c sep then cur :: split_from sep false EmptyString s'
      else split_from sep false (cur +:+ String c EmptyString) s'
  end.

Definition split_unescaped (sep : ascii) (s : string) : list string :=
  split_from sep false EmptyString s.

(** Reading back one piece [key=value]. *)
Definition read_pair (piece : string) : option (string * string) :=
  match split_unescaped "="%char piece with
  | [k; v] => Some (unescape k, unescape v)
  | _ => None
  end.

Fixpoint read_pairs (pieces : list string) : option (list (string * string)) :=
  match pieces with
  | [] => Some []
  | piece :: pieces' =>
      match read_pair piece, read_pairs pieces' with
      | Some kv, Some kvs => Some (kv :: kvs)
      | _, _ => None
      end
  end.

(** Reading back the data of an item line: [;key=value], repeated. *)
Definition read_data (text : string) : option (list (string * string)) :=
  match split_unescaped ";"%char text with
  | EmptyString :: pieces => read_pairs pieces
  | _ => None
  end.

(** [itemsf << ";" << key << "=" << value] for one entry of the data map. *)
Definition export_data (line : string) (kv : string * string) : string :=
  let key := escape kv.1 in
  let value := escape kv.2 in
  line +:+ ";" +:+ key +:+ "=" +:+ value.

(** ** Sample worlds

    Map A is the 3 x 2 map at (10, 20) on level 0, with a warp at (11, 20)
    and an item at (12, 21); map B overlaps its corner; every other address
    holds map C, one cell at the origin of level -1. *)

Definition sample_item : Item :=
  {| getId := 42; getQuality := 333; getData := [("a=b;c\d", "x\y")] |}.

Definition map_A_cells (x y : Z) : option Field :=
  if (10 <=? x) && (x <=? 12) && (20 <=? y) && (y <=? 21) then
    Some {| getTileCode := 7; getMusicId := 0;
            GetWarpField := if (x =? 11) && (y =? 20)
                            then Some (mk_position 100 200 1) else None;
            giveExportItems := if (x =? 12) && (y =? 21) then [sample_item] else [] |}
  else None.

Definition map_A : Map :=
  {| Min_X := 10; Max_X := 12; Min_Y := 20; Max_Y := 21; Z_Level := 0;
     Width := 3; Height := 2; GetCFieldAt := map_A_cells |}.

Definition map_B : Map :=
  {| Min_X := 12; Max_X := 13; Min_Y := 21; Max_Y := 22; Z_Level := 0;
     Width := 2; Height := 2; GetCFieldAt := fun _ _ => None |}.

Definition map_C : Map :=
  {| Min_X := 0; Max_X := 0; Min_Y := 0; Max_Y := 0; Z_Level := -1;
     Width := 1; Height := 1; GetCFieldAt := fun _ _ => None |}.

Definition sample_heap (p : ptr) : Map :=
  match p with
  | 1%positive => map_A
  | 2%positive => map_B
  | _ => map_C
  end.

(** The registry after the insertion of map A. *)
Definition registry_A : WorldMap :=
  {| maps := [1%positive];
     world_map := list_to_map
       [ (mk_position 10 20 0, 1%positive); (mk_position 10 21 0, 1%positive);
         (mk_position 11 20 0, 1%positive); (mk_position 11 21 0, 1%positive);
         (mk_position 12 20 0, 1%positive); (mk_position 12 21 0, 1%positive) ];
     ageIndex := 0 |}.

(** The registry after the insertion of A, then B. *)
Definition registry_AB : WorldMap :=
  {| maps := [1%positive; 2%positive];
     world_map := list_to_map
       [ (mk_position 10 20 0, 1%positive); (mk_position 10 21 0, 1%positive);
         (mk_position 11 20 0, 1%positive); (mk_position 11 21 0, 1%positive);
         (mk_position 12 20 0, 1%positive); (mk_position 12 21 0, 2%positive);
         (mk_position 12 22 0, 2%positive); (mk_position 13 21 0, 2%positive);
         (mk_position 13 22 0, 2%positive) ];
     ageIndex := 0 |}.

(** The registry after the insertion of A, then B, then the map at 3. *)
Definition registry_ABC : WorldMap :=
  {| maps := [1%positive; 2%positive; 3%positive];
     world_map := list_to_map
       [ (mk_position 10 20 0, 1%positive); (mk_position 10 21 0, 1%positive);
         (mk_position 11 20 0, 1%positive); (mk_position 11 21 0, 1%positive);
         (mk_position 12 20 0, 1%positive); (mk_position 12 21 0, 2%positive);
         (mk_position 12 22 0, 2%positive); (mk_position 13 21 0, 2%positive);
         (mk_position 13 22 0, 2%positive); (mk_position 0 0 (-1), 3%positive) ];
     ageIndex := 0 |}.

(** A store where every address holds a copy of map C. *)
Definition heap_C (p : ptr) : Map := map_C.

(** 65536 maps, each a copy of map C at an address of its own. *)
Definition registry_65536 : WorldMap :=
  {| maps := List.map Pos.of_succ_nat (seq 0 (Z.to_nat 65536));
     world_map := {[ mk_position 0 0 (-1) := 65536%positive ]};
     ageIndex := 0 |}.

(** Readings of the clock, in nanoseconds: the first call runs out of its
    budget before the third map, the second call ages it. *)
Definition sample_clock (k : nat) : Z :=
  nth k [0; 1000000; 5000000; 12000000; 20000000; 21000000] 30000000.

(** Every stream opens but the items file of the second map (the fifth
    stream opened). *)
Definition sample_open_ok (k : nat) (path : string) : bool := negb (k =? 4)%nat.

(** A map that reaches the largest 16-bit coordinate, the store that holds
    it at every address, and the registry that holds it (reachable when
    coordinates are wider than 16 bits). *)
Definition map_edge : Map :=
  {| Min_X := 32766; Max_X := 32767; Min_Y := 0; Max_Y := 0; Z_Level := 0;
     Width := 2; Height := 1; GetCFieldAt := fun _ _ => None |}.

Definition heap_edge (p : ptr) : Map := map_edge.

Definition registry_edge : WorldMap :=
  {| maps := [1%positive];
     world_map := list_to_map
       [ (mk_position 32766 0 0, 1%positive); (mk_position 32767 0 0, 1%positive) ];
     ageIndex := 0 |}.

(** The registry of A, B and the map at 3 in the middle of a sweep, and
    the registry after [clear] there and the registration of the map at 3. *)
Definition registry_ABC_mid : WorldMap :=
  {| maps := maps registry_ABC; world_map := world_map registry_ABC; ageIndex := 2 |}.

Definition registry_C_stale : WorldMap :=
  {| maps := [3%positive];
     world_map := {[ mk_position 0 0 (-1) := 3%positive ]};
     ageIndex := 2 |}.

(** Readings of the clock: the first call runs out of its budget after one
    map, the second call ages what remains. *)
Definition sample_clock2 (k : nat) : Z :=
  nth k [0; 1000000; 12000000; 20000000; 21000000; 22000000] 30000000.

(** A clock that stands still, and one that jumps 20 ms between two
    readings. *)
Definition still_clock (k : nat) : Z := 0.
Definition slow_clock (k : nat) : Z := Z.of_nat k * 20000000.

(** Every stream opens. *)
Definition all_open_ok (k : nat) (path : string) : bool := true.

Section Registry.

(** The size in bytes of the coordinate type of [Map] and [position]
    (declared in headers that are not among the sources), and the store of
    [Map] objects the references point to. *)
Variable coord_bytes : positive.
Variable heap : ptr -> Map.

Definition coord_bits : Z := 8 * Z.pos coord_bytes.

(** The bounds of a map are values of the coordinate type. *)
Definition wf_Map (m : Map) : Prop :=
  in_signed coord_bits (Min_X m) /\ in_signed coord_bits (Max_X m) /\
  in_signed coord_bits (Min_Y m) /\ in_signed coord_bits (Max_Y m) /\
  in_signed coord_bits (Z_Level m).

(** Every [Map] object has bounds of the coordinate type. *)
Definition wf_heap : Prop := forall p, wf_Map (heap p).

(** [WorldMap::clear] *)
Definition clear (wm : WorldMap) : WorldMap :=
  {| maps := []; world_map := ∅; ageIndex := ageIndex wm |}.

(** [WorldMap::findMapForPos]: [world_map.at(pos)], the null reference when
    [at] throws [std::out_of_range]. *)
Definition findMapForPos (wm : WorldMap) (pos : position) : map_t :=
  world_map wm !! pos.

(** The scan of [InsertMap] over [maps] for the reference itself. *)
Fixpoint registered (newMap : ptr) (l : list ptr) : bool :=
  match l with
  | [] => false
  | it :: l' => if Pos.eqb it newMap then true else registered newMap l'
  end.

(** The two nested loops of [InsertMap] over the cells of the rectangle. *)
Definition write_column (fuel : nat) (newMap : ptr) (x : Z)
    (w : gmap position ptr) : option (gmap position ptr) :=
  for_le coord_bits fuel (Min_Y (heap newMap)) (Max_Y (heap newMap))
    (fun y w => Some (<[mk_position x y (Z_Level (heap newMap)) := newMap]> w)) w.

Definition write_cells (fuel : nat) (newMap : ptr)
    (w : gmap position ptr) : option (gmap position ptr) :=
  for_le coord_bits fuel (Min_X (heap newMap)) (Max_X (heap newMap))
    (write_column fuel newMap) w.

(** [WorldMap::InsertMap] *)
Definition InsertMap (fuel : nat) (wm : WorldMap) (newMap : map_t)
    : option (bool * WorldMap) :=
  match newMap with
  | Some p =>
      if registered p (maps wm) then Some (false, wm)
      else
        match write_cells fuel p (world_map wm) with
        | Some w => Some (true, {| maps := maps wm ++ [p];
                                   world_map := w;
                                   ageIndex := ageIndex wm |})
        | None => None
        end
  | None => Some (false, wm)
  end.


(** Modelled from the spec: [Map::intersects] is defined outside the sources;
    section 6 calls it a bounds-intersection test against an arbitrary
    axis-aligned rectangle at a given z-level. *)
Definition intersects (m : Map) (upperleft downright : MAP_POSITION) (z : Z) : bool :=
  (Z_Level m =? z) &&
  (mp_x upperleft <=? Max_X m) && (Min_X m <=? mp_x downright) &&
  (mp_y upperleft <=? Max_Y m) && (Min_Y m <=? mp_y downright).

(** The conversion of a [position] to a [MAP_POSITION]. *)
Definition to_MAP_POSITION (p : position) : MAP_POSITION :=
  mk_MAP_POSITION (pos_x p) (pos_y p).

(** The constructor [MAP_POSITION(x, y)] applied to [int] arguments: each
    is stored in the coordinate type. *)
Definition MAP_POSITION_of (x y : Z) : MAP_POSITION :=
  mk_MAP_POSITION (wrap coord_bits x) (wrap coord_bits y).

(** [WorldMap::mapInRangeOf]; [dx], [dy] are [unsigned short]. *)
Definition mapInRangeOf (wm : WorldMap) (upperleft : position) (dx dy : Z) : bool :=
  let downright := MAP_POSITION_of (pos_x upperleft + dx - 1) (pos_y upperleft + dy - 1) in
  existsb (fun map => intersects (heap map) (to_MAP_POSITION upperleft) downright
                        (pos_z upperleft))
          (maps wm).

(** [WorldMap::findAllMapsInRangeOf]; the four margins are [char]. *)
Definition findAllMapsInRangeOf (wm : WorldMap) (rnorth rsouth reast rwest : Z)
    (pos : position) : list ptr :=
  let upperleft := MAP_POSITION_of (pos_x pos - rwest) (pos_y pos - rnorth) in
  let downright := MAP_POSITION_of (pos_x pos + reast) (pos_y pos + rsouth) in
  List.filter (fun map => intersects (heap map) upperleft downright (pos_z pos))
              (maps wm).

(** ** The aging sweep *)

(** What a call of [allMapsAged] does to the outside: the readings it has
    taken of the steady clock so far, and the maps whose [age()] ran, oldest
    first. *)
Record AgeEnv := mk_AgeEnv {
  clock_reads : nat;
  aged : list ptr
}.

(** The [k]-th reading of [steady_clock::now()], in nanoseconds. *)
Variable steady_clock_now : nat -> Z.

Definition milliseconds (n : Z) : Z := n * 1000000.

Definition tick (e : AgeEnv) : AgeEnv :=
  {| clock_reads := Datatypes.S (clock_reads e); aged := aged e |}.

Definition age (m : ptr) (e : AgeEnv) : AgeEnv :=
  {| clock_reads := clock_reads e; aged := aged e ++ [m] |}.

(** The [while] loop of [allMapsAged]. [l !! idx] is [Some] exactly when
    [idx < l.size()], and the clock is read only then. [n] bounds the
    iterations; [length l - idx] is enough ([age_loop_fuel]). *)
Fixpoint age_loop (n : nat) (startTime : Z) (l : list ptr) (idx : nat)
    (e : AgeEnv) : nat * AgeEnv :=
  match n with
  | O => (idx, e)
  | Datatypes.S n' =>
      match l !! idx with
      | None => (idx, e)
      | Some m =>
          let now := steady_clock_now (clock_reads e) in
          if now - startTime <? milliseconds 10
          then age_loop n' startTime l (Datatypes.S idx) (age m (tick e))
          else (idx, tick e)
      end
  end.

Definition set_ageIndex (i : nat) (wm : WorldMap) : WorldMap :=
  {| maps := maps wm; world_map := world_map wm; ageIndex := i |}.

(** The state after the loop of one call: the cursor and the outside. *)
Definition age_pass (wm : WorldMap) (e : AgeEnv) : nat * AgeEnv :=
  let startTime := steady_clock_now (clock_reads e) in
  age_loop (length (maps wm) - ageIndex wm) startTime (maps wm) (ageIndex wm) (tick e).

(** [WorldMap::allMapsAged] *)
Definition allMapsAged (wm : WorldMap) (e : AgeEnv) : bool * WorldMap * AgeEnv :=
  let '(idx, e') := age_pass wm e in
  if (idx <? length (maps wm))%nat
  then (false, set_ageIndex idx wm, e')
  else (true, set_ageIndex 0%nat wm, e').

(** [k] calls in a row: the results, oldest first, and the final state. *)
Fixpoint sweep_calls (k : nat) (wm : WorldMap) (e : AgeEnv)
    : list bool * WorldMap * AgeEnv :=
  match k with
  | O => ([], wm, e)
  | Datatypes.S k' =>
      let '(b, wm1, e1) := allMapsAged wm e in
      let '(bs, wm2, e2) := sweep_calls k' wm1 e1 in
      (b :: bs, wm2, e2)
  end.

(** ** The text export *)

(** The files on disk, by name, and the number of streams opened so far. *)
Record Disk := mk_Disk {
  files : gmap string string;
  opened : nat
}.

(** Whether the [k]-th stream the program opens, on file [path], opens. *)
Variable open_ok : nat -> string -> bool.

(** [std::ofstream f(path)]: on success the file exists and is empty; the
    flag is [f.good()]. *)
Definition ofstream_open (path : string) (d : Disk) : bool * Disk :=
  if open_ok (opened d) path
  then (true, {| files := <[path := EmptyString]> (files d);
                 opened := Datatypes.S (opened d) |})
  else (false, {| files := files d; opened := Datatypes.S (opened d) |}).

(** The text sent to the three streams of one map. *)
Record Streams := mk_Streams {
  fieldsf : string;
  itemsf : string;
  warpsf : string
}.

(** One line of the items file: [dx], [dy] are [x-minX], [y-minY]. *)
Definition export_item (dx dy : Z) (out : string) (it : Item) : string :=
  fold_left export_data (getData it)
    (out +:+ to_string dx +:+ ";" +:+ to_string dy +:+ ";"
         +:+ to_string (getId it) +:+ ";" +:+ to_string (getQuality it))
  +:+ endl.

(** The body of the inner loop of [exportTo]. *)
Definition export_cell (m : Map) (minX minY y x : Z) (st : Streams) : option Streams :=
  match GetCFieldAt m x y with
  | Some field =>
      Some {| fieldsf := fieldsf st +:+ to_string (x - minX) +:+ ";"
                           +:+ to_string (y - minY) +:+ ";"
                           +:+ to_string (getTileCode field) +:+ ";"
                           +:+ to_string (getMusicId field) +:+ endl;
              itemsf := fold_left (export_item (x - minX) (y - minY))
                                  (giveExportItems field) (itemsf st);
              warpsf := match GetWarpField field with
                        | Some target =>
                            warpsf st +:+ to_string (x - minX) +:+ ";"
                              +:+ to_string (y - minY) +:+ ";"
                              +:+ to_string (pos_x target) +:+ ";"
                              +:+ to_string (pos_y target) +:+ ";"
                              +:+ to_string (pos_z target) +:+ endl
                        | None => warpsf st
                        end |}
  | None => Some st
  end.

(** The loops over [y] and [x]; both counters are [short int]. *)
Definition export_row (fuel : nat) (m : Map) (minX minY y : Z) (st : Streams)
    : option Streams :=
  for_le 16 fuel minX (GetMaxX m) (export_cell m minX minY y) st.

Definition export_rows (fuel : nat) (m : Map) (minX minY : Z) (st : Streams)
    : option Streams :=
  for_le 16 fuel minY (GetMaxY m) (export_row fuel m minX minY) st.

Definition tiles_header (m : Map) (minX minY : Z) : string :=
  "V: 2" +:+ endl +:+
  "L: " +:+ to_string (Z_Level m) +:+ endl +:+
  "X: " +:+ to_string minX +:+ endl +:+
  "Y: " +:+ to_string minY +:+ endl +:+
  "W: " +:+ to_string (GetWidth m) +:+ endl +:+
  "H: " +:+ to_string (GetHeight m) +:+ endl.

Definition filebase (exportDir : string) (m : Map) (minX minY : Z) : string :=
  exportDir +:+ "e_" +:+ to_string minX +:+ "_" +:+ to_string minY
            +:+ "_" +:+ to_string (Z_Level m) +:+ ".".

(** The names of the three files of a map. *)
Definition tiles_path (base : string) : string := c_str (base +:+ "tiles.txt").
Definition items_path (base : string) : string := c_str (base +:+ "items.txt").
Definition warps_path (base : string) : string := c_str (base +:+ "warps.txt").

(** [fieldsf.close(); itemsf.close(); warpsf.close()]: the text of each
    stream is the content of its file. When the three names are one (a
    directory name with a NUL cuts all three at the same place) the three
    streams of the source write over one another from the start of that
    file; the content kept here for that case is that of the stream closed
    last, and the statements about content exclude the case. *)
Definition close_streams (base : string) (st : Streams) (d : Disk) : Disk :=
  {| files := <[warps_path base := warpsf st]>
                (<[items_path base := itemsf st]>
                   (<[tiles_path base := fieldsf st]> (files d)));
     opened := opened d |}.

(** Opening the three streams of one map: whether all are good, and the
    disk afterwards. *)
Definition open_streams (base : string) (d : Disk) : bool * Disk :=
  let '(fields_good, d1) := ofstream_open (tiles_path base) d in
  let '(items_good, d2) := ofstream_open (items_path base) d1 in
  let '(warps_good, d3) := ofstream_open (warps_path base) d2 in
  (negb (negb fields_good || negb items_good || negb warps_good), d3).

(** [minX] and [minY] of [exportTo] are [int16_t]. *)
Definition export_minX (m : Map) : Z := wrap 16 (GetMinX m).
Definition export_minY (m : Map) : Z := wrap 16 (GetMinY m).

(** The loop of [exportTo] over the maps from [l] on. The message sent to
    [Logger] when a stream did not open is not part of the model. *)
Fixpoint exportTo_from (fuel : nat) (exportDir : string) (l : list ptr) (d : Disk)
    : option (bool * Disk) :=
  match l with
  | [] => Some (true, d)
  | p :: l' =>
      let m := heap p in
      let minX := export_minX m in
      let minY := export_minY m in
      let base := filebase exportDir m minX minY in
      let '(all_good, d') := open_streams base d in
      if all_good then
        match export_rows fuel m minX minY
                {| fieldsf := tiles_header m minX minY;
                   itemsf := EmptyString; warpsf := EmptyString |} with
        | Some st => exportTo_from fuel exportDir l' (close_streams base st d')
        | None => None
        end
      else Some (false, d')
  end.

(** [WorldMap::exportTo] *)
Definition exportTo (fuel : nat) (exportDir : string) (wm : WorldMap) (d : Disk)
    : option (bool * Disk) :=
  exportTo_from fuel exportDir (maps wm) d.

(** ** The binary snapshot *)

(** One [mapinitfile.write] of the address of [v] and [sizeof(v)]: the
    object [v] of [size] bytes as it lies in memory. *)
Inductive chunk := Obj (size : Z) (value : Z).

Definition chunk_size (c : chunk) : Z :=
  match c with Obj size _ => size end.

(** The number of bytes of a sequence of writes. *)
Definition file_size (l : list chunk) : Z :=
  fold_right (fun c n => chunk_size c + n) 0 l.

(** What [saveToDisk] leaves: the content of the index file and the calls
    of [Map::Save], oldest first. *)
Record SaveLog := mk_SaveLog {
  mapinitfile : list chunk;
  Save_calls : list (ptr * string)
}.

Inductive SaveOutcome :=
| NotCreated                              (* the index file did not open *)
| Saved (name : string) (log : SaveLog)   (* the index file and its name *)
| BufferOverrun.                          (* [sprintf] wrote past [mname] *)

(** The text of the format [%s_%6d_%6d_%6d] for [prefix.c_str()] and the
    z-level, the least x and the least y of [m]. *)
Definition mname_text (prefix : string) (m : Map) : string :=
  c_str prefix +:+ "_" +:+ pad6 (Z_Level m) +:+ "_" +:+ pad6 (Min_X m)
               +:+ "_" +:+ pad6 (Min_Y m).

(** [sprintf(mname, ...)] into [char mname[200]]: the text and its closing
    NUL must fit. *)
Definition sprintf_mname (prefix : string) (m : Map) : option string :=
  let text := mname_text prefix m in
  if (String.length text <? 200)%nat then Some text else None.

(** The name as the specification writes it: the prefix and the three
    numbers, joined by underscores. *)
Definition spec_mname (prefix : string) (m : Map) : string :=
  prefix +:+ "_" +:+ to_string (Z_Level m) +:+ "_" +:+ to_string (Min_X m)
         +:+ "_" +:+ to_string (Min_Y m).

(** The five writes for one map; [Width] and [Height] are 16 bits wide
    (section 6). *)
Definition save_record (m : Map) : list chunk :=
  [ Obj (Z.pos coord_bytes) (Z_Level m);
    Obj (Z.pos coord_bytes) (Min_X m);
    Obj (Z.pos coord_bytes) (Min_Y m);
    Obj 2 (Width m);
    Obj 2 (Height m) ].

(** The loop of [saveToDisk] over the maps from [l] on. *)
Fixpoint save_maps (prefix : string) (l : list ptr) (log : SaveLog) : option SaveLog :=
  match l with
  | [] => Some log
  | p :: l' =>
      match sprintf_mname prefix (heap p) with
      | Some mname =>
          save_maps prefix l'
            {| mapinitfile := mapinitfile log ++ save_record (heap p);
               Save_calls := Save_calls log ++ [(p, mname)] |}
      | None => None
      end
  end.

(** [WorldMap::saveToDisk]; [good] is [mapinitfile.good()] after opening. *)
Definition saveToDisk (good : bool) (prefix : string) (wm : WorldMap) : SaveOutcome :=
  if good then
    let size := uwrap 16 (Z.of_nat (length (maps wm))) in
    match save_maps prefix (maps wm)
            {| mapinitfile := [Obj 2 size]; Save_calls := [] |} with
    | Some log => Saved (c_str (prefix +:+ "_initmaps")) log
    | None => BufferOverrun
    end
  else NotCreated.

(** ** The invariant of the registry *)

(** The bounds of [m] cover the cell [pos]. *)
Definition covers (m : Map) (pos : position) : Prop :=
  Z_Level m = pos_z pos /\
  Min_X m <= pos_x pos <= Max_X m /\
  Min_Y m <= pos_y pos <= Max_Y m.

#[global] Instance covers_dec m pos : Decision (covers m pos).
Proof. unfold covers. apply _. Defined.

(** [w'] is [w] with every cell that satisfies [P] set to [p]. *)
Definition writes (P : position -> Prop) (p : ptr) (w w' : gmap position ptr) : Prop :=
  forall pos,
    (P pos -> w' !! pos = Some p) /\ (~ P pos -> w' !! pos = w !! pos).

(** Every cell of every registered map has a dictionary entry, and the
    entry is a registered map that covers the cell. *)
Definition index_inv (wm : WorldMap) : Prop :=
  forall p x y,
    p ∈ maps wm ->
    Min_X (heap p) <= x <= Max_X (heap p) ->
    Min_Y (heap p) <= y <= Max_Y (heap p) ->
    exists q,
      world_map wm !! mk_position x y (Z_Level (heap p)) = Some q /\
      q ∈ maps wm /\
      covers (heap q) (mk_position x y (Z_Level (heap p))).

(** The states the registry goes through: from the empty one, by the
    calls that change it and return. *)
Inductive reachable : WorldMap -> Prop :=
| reach_empty : reachable empty_WorldMap
| reach_clear wm : reachable wm -> reachable (clear wm)
| reach_InsertMap wm fuel newMap b wm' :
    reachable wm ->
    InsertMap fuel wm newMap = Some (b, wm') ->
    reachable wm'
| reach_allMapsAged wm e b wm' e' :
    reachable wm ->
    allMapsAged wm e = (b, wm', e') ->
    reachable wm'.

(** The loops over the bounds of [m] end: no bound is the largest value of
    its counter's type. *)
Definition loops_end (bits : Z) (m : Map) : Prop :=
  Max_X m < smax bits /\ Max_Y m < smax bits.

(** The number of iterations the loops over the bounds of [m] need. *)
Definition cells_fuel (m : Map) : nat :=
  Z.to_nat (Z.max (Max_X m - Min_X m + 1) (Max_Y m - Min_Y m + 1)).

(** The number of calls that returned true: the sweeps completed. *)
Definition sweeps_done (bs : list bool) : nat := count_occ Bool.bool_dec bs true.

(** The [age()] calls of [n] whole sweeps over [l]. *)
Definition whole_sweeps (n : nat) (l : list ptr) : list ptr := mjoin (replicate n l).

(** The base name of the files of the map at [p]. *)
Definition map_base (exportDir : string) (p : ptr) : string :=
  filebase exportDir (heap p) (export_minX (heap p)) (export_minY (heap p)).

(** The three streams of a map all open, when the first of them is the
    [k]-th stream opened. *)
Definition streams_good (k : nat) (base : string) : bool :=
  open_ok k (tiles_path base) &&
  open_ok (Datatypes.S k) (items_path base) &&
  open_ok (Datatypes.S (Datatypes.S k)) (warps_path base).

(** All streams of all the maps of [l] open, one map after the other. *)
Fixpoint all_open (k : nat) (exportDir : string) (l : list ptr) : bool :=
  match l with
  | [] => true
  | p :: l' => streams_good k (map_base exportDir p) && all_open (3 + k) exportDir l'
  end.

(** The number of iterations the loops of [exportTo] over [m] need. *)
Definition export_fuel (m : Map) : nat :=
  Z.to_nat (Z.max (Max_X m - export_minX m + 1) (Max_Y m - export_minY m + 1)).

(** ** More of the registry *)

(** The map registered last among those whose bounds cover [pos]. *)
Definition last_covering (wm : WorldMap) (pos : position) : map_t :=
  last (filter (fun p => covers (heap p) pos) (maps wm)).

(** Calls on the registry, in program order. *)
Inductive call :=
| Call_InsertMap (fuel : nat) (newMap : map_t)
| Call_allMapsAged.

(** A run of calls: the results of the aging calls, oldest first, and the
    final state; [None] when a call of [InsertMap] does not return. *)
Fixpoint run_calls (cs : list call) (wm : WorldMap) (e : AgeEnv)
    : option (list bool * WorldMap * AgeEnv) :=
  match cs with
  | [] => Some ([], wm, e)
  | Call_InsertMap fuel newMap :: cs' =>
      match InsertMap fuel wm newMap with
      | Some (_, wm1) => run_calls cs' wm1 e
      | None => None
      end
  | Call_allMapsAged :: cs' =>
      let '(b, wm1, e1) := allMapsAged wm e in
      match run_calls cs' wm1 e1 with
      | Some (bs, wm2, e2) => Some (b :: bs, wm2, e2)
      | None => None
      end
  end.

(** ** Reading names back *)

(** Reading a printed number back. *)
Definition of_string (s : string) : option Z :=
  option_map Z.of_int (NilZero.int_of_string s).

(** The characters of a printed number: the digits and the sign. *)
Definition numeric (c : ascii) : bool :=
  existsb (Ascii.eqb c) (list_ascii_of_string "0123456789-").

Fixpoint string_forallb (f : ascii -> bool) (s : string) : bool :=
  match s with
  | EmptyString => true
  | String c s' => f c && string_forallb f s'
  end.

(** Reading a number printed with [%6d] back: the padding is dropped. *)
Fixpoint strip_spaces (s : string) : string :=
  match s with
  | EmptyString => EmptyString
  | String c s' => if Ascii.eqb c " "%char then strip_spaces s' else s
  end.

Definition read_padded (s : string) : option Z := of_string (strip_spaces s).

(** ** The text of a map *)

(** The names of the three files of the map at [p]. *)
Definition map_paths (exportDir : string) (p : ptr) : list string :=
  [ tiles_path (map_base exportDir p);
    items_path (map_base exportDir p);
    warps_path (map_base exportDir p) ].

(** The cells [(x, y)] the loops of [exportTo] visit for [m]: row after
    row, each row from left to right. *)
Definition export_cells (m : Map) : list (Z * Z) :=
  flat_map
    (fun y => List.map (fun x => (x, y))
                (zrange (export_minX m) (Z.to_nat (GetMaxX m - export_minX m + 1))))
    (zrange (export_minY m) (Z.to_nat (GetMaxY m - export_minY m + 1))).

(** What one cell adds to the tiles file, to the warps file and to the
    items file. *)
Definition tiles_line (m : Map) (c : Z * Z) : string :=
  match GetCFieldAt m c.1 c.2 with
  | Some field =>
      to_string (c.1 - export_minX m) +:+ ";" +:+ to_string (c.2 - export_minY m) +:+ ";"
        +:+ to_string (getTileCode field) +:+ ";" +:+ to_string (getMusicId field) +:+ endl
  | None => EmptyString
  end.

Definition warps_line (m : Map) (c : Z * Z) : string :=
  match GetCFieldAt m c.1 c.2 with
  | Some field =>
      match GetWarpField field with
      | Some target =>
          to_string (c.1 - export_minX m) +:+ ";" +:+ to_string (c.2 - export_minY m) +:+ ";"
            +:+ to_string (pos_x target) +:+ ";" +:+ to_string (pos_y target) +:+ ";"
            +:+ to_string (pos_z target) +:+ endl
      | None => EmptyString
      end
  | None => EmptyString
  end.

Definition items_lines (m : Map) (c : Z * Z) : string :=
  match GetCFieldAt m c.1 c.2 with
  | Some field =>
      fold_left (export_item (c.1 - export_minX m) (c.2 - export_minY m))
                (giveExportItems field) EmptyString
  | None => EmptyString
  end.

Definition string_concat (l : list string) : string :=
  fold_right String.append EmptyString l.

(** The streams after one more cell. *)
Definition cell_step (m : Map) (st : Streams) (c : Z * Z) : Streams :=
  {| fieldsf := fieldsf st +:+ tiles_line m c;
     itemsf := itemsf st +:+ items_lines m c;
     warpsf := warpsf st +:+ warps_line m c |}.

(** The streams of [exportTo] when the header of a map is written. *)
Definition header_streams (m : Map) : Streams :=
  {| fieldsf := tiles_header m (export_minX m) (export_minY m);
     itemsf := EmptyString; warpsf := EmptyString |}.

(** * Properties *)

(** ** Machine integers and loops *)

Lemma in_signed_bits bits v : in_signed bits v -> 0 < 2 ^ (bits - 1) /\ 2 ^ bits = 2 * 2 ^ (bits - 1).
Proof.
  unfold in_signed, smin, smax. intros H.
  assert (Hp : 0 < 2 ^ (bits - 1)) by lia.
  split; [exact Hp|].
  assert (0 <= bits - 1).
  { destruct (Z.lt_ge_cases (bits - 1) 0) as [Hn|]; [|lia].
    rewrite (Z.pow_neg_r _ _ Hn) in Hp. lia. }
  replace bits with (Z.succ (bits - 1)) at 1 by lia.
  by rewrite Z.pow_succ_r.
Qed.

Lemma wrap_in_signed bits v : in_signed bits v -> wrap bits v = v.
Proof.
  intros H. destruct (in_signed_bits _ _ H) as [Hp He].
  unfold in_signed, smin, smax in H. unfold wrap.
  rewrite Z.mod_small; lia.
Qed.

Lemma wrap_range bits v w : in_signed bits w -> in_signed bits (wrap bits v).
Proof.
  intros H. destruct (in_signed_bits _ _ H) as [Hp He].
  unfold in_signed, smin, smax, wrap.
  pose proof (Z.mod_pos_bound (v + 2 ^ (bits - 1)) (2 ^ bits)). lia.
Qed.

Lemma elem_of_zrange i lo n : i ∈ zrange lo n <-> lo <= i < lo + Z.of_nat n.
Proof.
  revert lo. induction n as [|n IH]; intros lo; simpl.
  - rewrite elem_of_nil. lia.
  - rewrite elem_of_cons, IH. lia.
Qed.

Lemma zrange_step lo hi :
  lo <= hi ->
  zrange lo (Z.to_nat (hi - lo + 1)) = lo :: zrange (lo + 1) (Z.to_nat (hi - (lo + 1) + 1)).
Proof.
  intros H. replace (Z.to_nat (hi - lo + 1)) with (Datatypes.S (Z.to_nat (hi - (lo + 1) + 1))) by lia.
  reflexivity.
Qed.

Lemma zrange_empty lo hi : hi < lo -> zrange lo (Z.to_nat (hi - lo + 1)) = [].
Proof. intros H. replace (Z.to_nat (hi - lo + 1)) with 0%nat by lia. reflexivity. Qed.

Section Loops.
Context {S : Type}.
Variable bits : Z.
Variable body : Z -> S -> option S.

(** A loop that returns has run its body on [lo .. hi], in order. *)
Lemma for_le_sound fuel lo hi s s' :
  in_signed bits lo -> hi < smax bits ->
  for_le bits fuel lo hi body s = Some s' ->
  fold_opt body (zrange lo (Z.to_nat (hi - lo + 1))) s = Some s'.
Proof.
  revert lo s. induction fuel as [|fuel IH]; intros lo s Hlo Hhi; simpl.
  - destruct (Z.leb_spec lo hi); [discriminate|].
    rewrite zrange_empty by lia. done.
  - destruct (Z.leb_spec lo hi) as [Hle|Hgt].
    + rewrite zrange_step by done. simpl.
      destruct (body lo s) as [s1|]; [|discriminate].
      assert (Hin : in_signed bits (lo + 1)) by (unfold in_signed in *; lia).
      rewrite (wrap_in_signed _ _ Hin). by apply IH.
    + rewrite zrange_empty by lia. done.
Qed.

(** With the fuel for its iterations, the loop is that fold. *)
Lemma for_le_complete fuel lo hi s :
  in_signed bits lo -> hi < smax bits ->
  (Z.to_nat (hi - lo + 1) <= fuel)%nat ->
  for_le bits fuel lo hi body s = fold_opt body (zrange lo (Z.to_nat (hi - lo + 1))) s.
Proof.
  revert lo s. induction fuel as [|fuel IH]; intros lo s Hlo Hhi Hf; simpl.
  - destruct (Z.leb_spec lo hi); [lia|].
    by rewrite zrange_empty by lia.
  - destruct (Z.leb_spec lo hi) as [Hle|Hgt].
    + rewrite zrange_step by done. simpl.
      destruct (body lo s) as [s1|]; [|done].
      assert (Hin : in_signed bits (lo + 1)) by (unfold in_signed in *; lia).
      rewrite (wrap_in_signed _ _ Hin). apply IH; [done|done|lia].
    + by rewrite zrange_empty by lia.
Qed.

(** When the upper bound is the largest value of the counter's type and
    the range is not empty, the loop does not end. *)
Lemma for_le_diverges fuel lo hi s :
  in_signed bits lo -> lo <= hi -> smax bits <= hi ->
  for_le bits fuel lo hi body s = None.
Proof.
  intros Hlo Hle Hhi. clear Hle.
  revert lo s Hlo. induction fuel as [|fuel IH]; intros lo s Hlo; simpl.
  - destruct (Z.leb_spec lo hi); [done|]. unfold in_signed in Hlo. lia.
  - destruct (Z.leb_spec lo hi); [|unfold in_signed in Hlo; lia].
    destruct (body lo s); [|done].
    apply IH. by eapply wrap_range.
Qed.

Lemma fold_opt_total l s :
  (forall i s, exists s', body i s = Some s') ->
  exists s', fold_opt body l s = Some s'.
Proof.
  intros Hbody. revert s. induction l as [|i l IH]; intros s; simpl; [eauto|].
  destruct (Hbody i s) as [s1 ->]. apply IH.
Qed.

(** With the fuel for its iterations, a loop whose body returns does. *)
Lemma for_le_total fuel lo hi s :
  in_signed bits lo -> hi < smax bits ->
  (Z.to_nat (hi - lo + 1) <= fuel)%nat ->
  (forall i s, exists s', body i s = Some s') ->
  exists s', for_le bits fuel lo hi body s = Some s'.
Proof.
  intros Hlo Hhi Hfuel Hbody. rewrite for_le_complete by done.
  by apply fold_opt_total.
Qed.

(** A loop over bounds of the counter's type that returns has run its body
    on [lo .. hi], in order. *)
Lemma for_le_returns fuel lo hi s s' :
  in_signed bits lo -> in_signed bits hi ->
  for_le bits fuel lo hi body s = Some s' ->
  fold_opt body (zrange lo (Z.to_nat (hi - lo + 1))) s = Some s'.
Proof.
  intros Hlo Hhi Hrun.
  destruct (Z.lt_ge_cases hi lo) as [Hempty|Hle].
  - rewrite zrange_empty by done.
    destruct fuel; simpl in Hrun; destruct (Z.leb_spec lo hi); (lia || done).
  - destruct (Z.lt_ge_cases hi (smax bits)) as [Hlt|Hge].
    + by eapply for_le_sound.
    + by rewrite for_le_diverges in Hrun.
Qed.

End Loops.

(** ** Insertion *)

Lemma registered_elem_of p l : registered p l = true <-> p ∈ l.
Proof.
  induction l as [|q l IH]; simpl.
  - rewrite elem_of_nil. split; [discriminate|done].
  - rewrite elem_of_cons. destruct (Pos.eqb_spec q p) as [->|Hne].
    + split; auto.
    + rewrite IH. split; [auto|]. intros [->|]; [done|auto].
Qed.

Lemma writes_refl (P : position -> Prop) p w : (forall pos, ~ P pos) -> writes P p w w.
Proof. intros HP pos. split; [intros H; by destruct (HP pos)|done]. Qed.

(** One column: the cells [(x, y, z)] for [y] in [ys]. *)
Lemma fold_column_writes p x z ys w w' :
  fold_opt (fun y w => Some (<[mk_position x y z := p]> w)) ys w = Some w' ->
  writes (fun pos => pos_x pos = x /\ pos_z pos = z /\ pos_y pos ∈ ys) p w w'.
Proof.
  revert w. induction ys as [|y ys IH]; simpl; intros w Hrun.
  - injection Hrun as <-. apply writes_refl. intros pos (_ & _ & H).
    by apply elem_of_nil in H.
  - specialize (IH _ Hrun). intros pos. destruct (IH pos) as [Hin Hout].
    destruct (decide (pos_x pos = x /\ pos_z pos = z /\ pos_y pos ∈ ys)) as [Hys|Hys].
    + split; [auto|]. intros Hn. destruct Hn.
      destruct Hys as (? & ? & ?). rewrite elem_of_cons. auto.
    + rewrite (Hout Hys). destruct (decide (pos = mk_position x y z)) as [->|Hne].
      * rewrite lookup_insert_eq. split; [done|].
        intros Hn. destruct Hn. simpl. rewrite elem_of_cons. auto.
      * rewrite lookup_insert_ne by done. split; [|done].
        intros (Hx & Hz & Hy). apply elem_of_cons in Hy as [Hy|Hy].
        -- destruct Hne. destruct pos; simpl in *; congruence.
        -- destruct Hys. auto.
Qed.

Lemma write_column_writes fuel p x w w' :
  wf_Map (heap p) ->
  write_column fuel p x w = Some w' ->
  writes (fun pos => pos_x pos = x /\ pos_z pos = Z_Level (heap p) /\
                     Min_Y (heap p) <= pos_y pos <= Max_Y (heap p)) p w w'.
Proof.
  unfold write_column. intros (_ & _ & HminY & HmaxY & _) Hrun.
  apply for_le_returns in Hrun; [|done..].
  apply fold_column_writes in Hrun.
  intros pos. destruct (Hrun pos) as [Hin Hout].
  rewrite elem_of_zrange in Hin, Hout.
  split; intros H; [apply Hin|apply Hout]; lia.
Qed.

(** The columns for [x] in [xs]. *)
Lemma fold_rows_writes fuel p xs w w' :
  wf_Map (heap p) ->
  fold_opt (write_column fuel p) xs w = Some w' ->
  writes (fun pos => pos_x pos ∈ xs /\ pos_z pos = Z_Level (heap p) /\
                     Min_Y (heap p) <= pos_y pos <= Max_Y (heap p)) p w w'.
Proof.
  intros Hwf. revert w. induction xs as [|x xs IH]; simpl; intros w Hrun.
  - injection Hrun as <-. apply writes_refl. intros pos (H & _).
    by apply elem_of_nil in H.
  - destruct (write_column fuel p x w) as [w1|] eqn:Hcol; [|discriminate].
    apply write_column_writes in Hcol; [|done]. specialize (IH _ Hrun).
    intros pos. destruct (IH pos) as [Hin Hout]. destruct (Hcol pos) as [Hin1 Hout1].
    destruct (decide (pos_x pos ∈ xs /\ pos_z pos = Z_Level (heap p) /\
                      Min_Y (heap p) <= pos_y pos <= Max_Y (heap p))) as [Hxs|Hxs].
    + split; [auto|].
      intros Hn. destruct Hn. destruct Hxs as (? & ? & ?). rewrite elem_of_cons. auto.
    + rewrite (Hout Hxs). split.
      * intros (Hx & Hz & Hy). apply elem_of_cons in Hx as [Hx|Hx]; [auto|].
        destruct Hxs. auto.
      * intros Hn. apply Hout1.
        intros (Hx & ? & ?). apply Hn. rewrite elem_of_cons. auto.
Qed.

(** The loops of [InsertMap], when they return, have set exactly the cells
    of the rectangle of the new map. *)
Lemma write_cells_writes fuel p w w' :
  wf_Map (heap p) ->
  write_cells fuel p w = Some w' ->
  writes (covers (heap p)) p w w'.
Proof.
  unfold write_cells. intros Hwf Hrun.
  pose proof Hwf as (HminX & HmaxX & _).
  apply for_le_returns in Hrun; [|done..].
  apply fold_rows_writes in Hrun; [|done].
  intros pos. destruct (Hrun pos) as [Hin Hout].
  rewrite elem_of_zrange in Hin, Hout. unfold covers.
  split; intros H; [apply Hin|apply Hout]; lia.
Qed.

(** With the fuel for the larger side of the rectangle, the loops return. *)
Lemma write_column_total fuel p x w :
  wf_Map (heap p) ->
  loops_end coord_bits (heap p) ->
  (cells_fuel (heap p) <= fuel)%nat ->
  exists w', write_column fuel p x w = Some w'.
Proof.
  intros (_ & _ & HminY & _) [_ Hy] Hfuel. unfold write_column, cells_fuel in *.
  rewrite for_le_complete; [|done|done|lia].
  generalize (zrange (Min_Y (heap p)) (Z.to_nat (Max_Y (heap p) - Min_Y (heap p) + 1))).
  intros ys. revert w. induction ys as [|y ys IH]; simpl; eauto.
Qed.

Lemma write_cells_total fuel p w :
  wf_Map (heap p) ->
  loops_end coord_bits (heap p) ->
  (cells_fuel (heap p) <= fuel)%nat ->
  exists w', write_cells fuel p w = Some w'.
Proof.
  intros Hwf Hend Hfuel. unfold write_cells.
  pose proof Hwf as (HminX & _).
  rewrite for_le_complete; [|done|by destruct Hend|unfold cells_fuel in Hfuel; lia].
  generalize (zrange (Min_X (heap p)) (Z.to_nat (Max_X (heap p) - Min_X (heap p) + 1))).
  intros xs. revert w. induction xs as [|x xs IH]; simpl; intros w; [eauto|].
  destruct (write_column_total fuel p x w Hwf Hend Hfuel) as [w1 ->]. apply IH.
Qed.

(** What a call of [InsertMap] that returns has done. *)
Lemma InsertMap_cases fuel wm newMap b wm' :
  (forall p, newMap = Some p -> wf_Map (heap p)) ->
  InsertMap fuel wm newMap = Some (b, wm') ->
  (b = false /\ wm' = wm /\ (newMap = None \/ (exists p, newMap = Some p /\ p ∈ maps wm)))
  \/ (b = true /\ exists p, newMap = Some p /\ (p ∉ maps wm) /\
        maps wm' = maps wm ++ [p] /\ ageIndex wm' = ageIndex wm /\
        writes (covers (heap p)) p (world_map wm) (world_map wm')).
Proof.
  intros Hwf. unfold InsertMap. destruct newMap as [p|].
  - destruct (registered p (maps wm)) eqn:Hreg.
    + intros [= <- <-]. left. apply registered_elem_of in Hreg. eauto 6.
    + destruct (write_cells fuel p (world_map wm)) as [w|] eqn:Hw; [|discriminate].
      intros [= <- <-]. right. split; [done|]. exists p. simpl.
      split; [done|]. split; [by rewrite <- registered_elem_of, Hreg|].
      split; [done|]. split; [done|]. apply (write_cells_writes fuel); auto.
  - intros [= <- <-]. left. auto.
Qed.

Lemma InsertMap_total fuel wm p :
  wf_Map (heap p) ->
  loops_end coord_bits (heap p) ->
  (cells_fuel (heap p) <= fuel)%nat ->
  exists wm', InsertMap fuel wm (Some p) = Some (negb (registered p (maps wm)), wm').
Proof.
  intros Hwf Hend Hfuel. unfold InsertMap.
  destruct (registered p (maps wm)); [eauto|].
  destruct (write_cells_total fuel p (world_map wm) Hwf Hend Hfuel) as [w ->]. eauto.
Qed.

(** A map whose rectangle is not empty and reaches the largest value of
    the coordinate type: the loop counter wraps around and the call does
    not return, whatever the fuel. *)
Lemma InsertMap_diverges fuel wm p :
  wf_Map (heap p) ->
  p ∉ maps wm ->
  Min_X (heap p) <= Max_X (heap p) ->
  Max_X (heap p) = smax coord_bits \/
    (Min_Y (heap p) <= Max_Y (heap p) /\ Max_Y (heap p) = smax coord_bits) ->
  InsertMap fuel wm (Some p) = None.
Proof.
  intros (HminX & _ & HminY & _) Hnew Hx Htop. unfold InsertMap.
  destruct (registered p (maps wm)) eqn:Hreg.
  { apply registered_elem_of in Hreg. done. }
  assert (Hcells : write_cells fuel p (world_map wm) = None); [|by rewrite Hcells].
  unfold write_cells. destruct Htop as [Hmax|[Hy Hmax]].
  - apply for_le_diverges; [done|done|lia].
  - destruct fuel as [|fuel]; simpl.
    + by destruct (Z.leb_spec (Min_X (heap p)) (Max_X (heap p))); [|lia].
    + destruct (Z.leb_spec (Min_X (heap p)) (Max_X (heap p))); [|lia].
      unfold write_column at 1. rewrite for_le_diverges; [done|done|done|lia].
Qed.

Lemma index_inv_empty wm : maps wm = [] -> index_inv wm.
Proof. intros Hm p x y Hp. rewrite Hm in Hp. by apply elem_of_nil in Hp. Qed.

Lemma index_inv_InsertMap fuel wm newMap b wm' :
  wf_heap ->
  index_inv wm ->
  InsertMap fuel wm newMap = Some (b, wm') ->
  index_inv wm'.
Proof.
  intros Hwf Hinv Hrun.
  apply InsertMap_cases in Hrun
    as [(_ & -> & _)|(_ & p & _ & _ & Hmaps & _ & Hw)]; [done| |by auto].
  intros q x y Hq Hx Hy. rewrite Hmaps in *.
  set (pos := mk_position x y (Z_Level (heap q))).
  destruct (Hw pos) as [Hin Hout].
  destruct (decide (covers (heap p) pos)) as [Hc|Hc].
  - exists p. rewrite (Hin Hc). split; [done|]. split; [|done].
    apply elem_of_app. right. by apply list_elem_of_singleton.
  - apply elem_of_app in Hq as [Hq|Hq].
    + destruct (Hinv q x y Hq Hx Hy) as (r & Hr & Hrm & Hrc).
      exists r. fold pos in Hr. rewrite (Hout Hc). split; [done|]. split; [|done].
      apply elem_of_app. by left.
    + apply list_elem_of_singleton in Hq as ->. destruct Hc.
      unfold covers, pos. simpl. done.
Qed.

Lemma index_inv_set_ageIndex i wm : index_inv wm -> index_inv (set_ageIndex i wm).
Proof. intros H. exact H. Qed.

Lemma allMapsAged_registry wm e :
  exists i, (allMapsAged wm e).1.2 = set_ageIndex i wm.
Proof.
  unfold allMapsAged. destruct (age_pass wm e) as [idx e'].
  destruct (idx <? length (maps wm))%nat; simpl; eauto.
Qed.

Lemma reachable_index_inv wm : wf_heap -> reachable wm -> index_inv wm.
Proof.
  intros Hwf. induction 1 as [|wm _ _|wm fuel newMap b wm' _ IH Hrun|wm e b wm' e' _ IH Hrun].
  - by apply index_inv_empty.
  - by apply index_inv_empty.
  - by eapply index_inv_InsertMap.
  - destruct (allMapsAged_registry wm e) as [i Hi].
    rewrite Hrun in Hi. simpl in Hi. subst wm'. by apply index_inv_set_ageIndex.
Qed.

(** No reference is registered twice. *)
Lemma reachable_NoDup wm : wf_heap -> reachable wm -> NoDup (maps wm).
Proof.
  intros Hwf. induction 1 as [|wm _ _|wm fuel newMap b wm' _ IH Hrun|wm e b wm' e' _ IH Hrun].
  - apply NoDup_nil. exact I.
  - apply NoDup_nil. exact I.
  - apply InsertMap_cases in Hrun
      as [(_ & -> & _)|(_ & p & _ & Hnew & -> & _)]; [done| |by auto].
    apply NoDup_app. split; [done|]. split.
    + intros q Hq ->%list_elem_of_singleton. done.
    + apply NoDup_singleton.
  - destruct (allMapsAged_registry wm e) as [i Hi].
    rewrite Hrun in Hi. simpl in Hi. by subst wm'.
Qed.

(** C1: in every reachable state of the registry, every cell of every
    registered map has a dictionary entry that is a registered map covering
    the cell. A call of [InsertMap] that returns keeps this, and when it
    returns true it has set every cell of the new map's rectangle to the new
    map, over whatever was there, and no other cell; the call returns once
    the loops have fuel for the rectangle. [clear] empties the vector and
    the dictionary, which keeps it as well. *)
Theorem index_invariant wm :
  wf_heap ->
  reachable wm ->
  index_inv wm /\
  (forall fuel newMap b wm',
     InsertMap fuel wm newMap = Some (b, wm') ->
     index_inv wm' /\
     (b = true ->
      exists p, newMap = Some p /\ maps wm' = maps wm ++ [p] /\
                writes (covers (heap p)) p (world_map wm) (world_map wm'))) /\
  (forall p fuel,
     loops_end coord_bits (heap p) -> (cells_fuel (heap p) <= fuel)%nat ->
     exists b wm', InsertMap fuel wm (Some p) = Some (b, wm')) /\
  (maps (clear wm) = [] /\ world_map (clear wm) = ∅ /\ index_inv (clear wm)).
Proof.
  intros Hwf Hreach. pose proof (reachable_index_inv wm Hwf Hreach) as Hinv.
  split; [done|]. split; [|split].
  - intros fuel newMap b wm' Hrun. split; [by eapply index_inv_InsertMap|].
    intros ->. apply InsertMap_cases in Hrun as [(? & _)|(_ & p & ? & _ & ? & _ & ?)];
      [done|eauto|by auto].
  - intros p fuel Hend Hfuel.
    destruct (InsertMap_total fuel wm p (Hwf p) Hend Hfuel) as [wm' Hrun]. eauto.
  - split; [done|]. split; [done|]. by apply index_inv_empty.
Qed.

(** C3: when the reference is already in the vector, [InsertMap] returns
    false and the registry is the one before the call: the vector, hence
    the number of maps, and the dictionary are unchanged. *)
Theorem InsertMap_duplicate fuel wm p :
  p ∈ maps wm ->
  exists wm',
    InsertMap fuel wm (Some p) = Some (false, wm') /\
    maps wm' = maps wm /\ length (maps wm') = length (maps wm) /\
    world_map wm' = world_map wm /\ wm' = wm.
Proof.
  intros Hin. exists wm. unfold InsertMap.
  apply registered_elem_of in Hin. rewrite Hin. done.
Qed.

(** C4: a call of [InsertMap] on an empty registry (a new one, or one
    just cleared) that returns has returned true, and then [findMapForPos]
    gives the map at every position of its rectangle at its z-level, and the
    null reference at every position its bounds do not cover, among them
    (Min_X - 1, Min_Y, z). The call returns once the loops have fuel for the
    rectangle. *)
Theorem findMapForPos_single wm p :
  wf_Map (heap p) ->
  maps wm = [] -> world_map wm = ∅ ->
  (forall fuel b wm',
     InsertMap fuel wm (Some p) = Some (b, wm') ->
     b = true /\
     (forall x y,
        Min_X (heap p) <= x <= Max_X (heap p) ->
        Min_Y (heap p) <= y <= Max_Y (heap p) ->
        findMapForPos wm' (mk_position x y (Z_Level (heap p))) = Some p) /\
     (forall pos, ~ covers (heap p) pos -> findMapForPos wm' pos = None) /\
     findMapForPos wm'
       (mk_position (Min_X (heap p) - 1) (Min_Y (heap p)) (Z_Level (heap p))) = None) /\
  (forall fuel,
     loops_end coord_bits (heap p) -> (cells_fuel (heap p) <= fuel)%nat ->
     exists wm', InsertMap fuel wm (Some p) = Some (true, wm')).
Proof.
  intros Hwf Hmaps Hdict. split.
  - intros fuel b wm' Hrun.
    apply InsertMap_cases in Hrun
      as [(_ & _ & [?|(q & _ & Hq)])|(-> & q & [= <-] & _ & _ & _ & Hw)];
      [| | |by intros ? [= <-]].
    + done.
    + rewrite Hmaps in Hq. by apply elem_of_nil in Hq.
    + split; [done|]. unfold findMapForPos.
      assert (Hout : forall pos, ~ covers (heap p) pos -> world_map wm' !! pos = None).
      { intros pos Hc. destruct (Hw pos) as [_ ->]; [|done].
        rewrite Hdict. apply lookup_empty. }
      split; [|split; [done|]].
      * intros x y Hx Hy. apply Hw. unfold covers. simpl. done.
      * apply Hout. unfold covers. simpl. lia.
  - intros fuel Hend Hfuel.
    destruct (InsertMap_total fuel wm p Hwf Hend Hfuel) as [wm' Hrun].
    assert (Hreg : registered p (maps wm) = false) by by rewrite Hmaps.
    rewrite Hreg in Hrun. eauto.
Qed.

(** C10: [InsertMap] on the null reference returns false and the registry
    is the one before the call. *)
Theorem InsertMap_null fuel wm :
  exists wm',
    InsertMap fuel wm None = Some (false, wm') /\
    maps wm' = maps wm /\ world_map wm' = world_map wm /\ wm' = wm.
Proof. exists wm. done. Qed.

(** ** Region queries *)

Lemma existsb_filter_nonempty {A} (f : A -> bool) (l : list A) :
  existsb f l = true <-> List.filter f l <> [].
Proof.
  induction l as [|a l IH]; simpl.
  - split; [discriminate|done].
  - destruct (f a); simpl; [split; done|exact IH].
Qed.

(** C5: when the margins around [pos] describe the rectangle of
    [mapInRangeOf] (the upper left corner is [pos] less west and north, the
    lower right corner [pos] plus east and south, the z-level is the same),
    [mapInRangeOf] is true exactly when [findAllMapsInRangeOf] returns a
    list that is not empty. *)
Theorem mapInRangeOf_findAllMapsInRangeOf wm upperleft dx dy
    rnorth rsouth reast rwest pos :
  pos_z pos = pos_z upperleft ->
  MAP_POSITION_of (pos_x pos - rwest) (pos_y pos - rnorth) = to_MAP_POSITION upperleft ->
  MAP_POSITION_of (pos_x pos + reast) (pos_y pos + rsouth)
    = MAP_POSITION_of (pos_x upperleft + dx - 1) (pos_y upperleft + dy - 1) ->
  mapInRangeOf wm upperleft dx dy = true
  <-> findAllMapsInRangeOf wm rnorth rsouth reast rwest pos <> [].
Proof.
  intros Hz Hul Hdr. unfold mapInRangeOf, findAllMapsInRangeOf.
  rewrite Hz, Hul, Hdr. apply existsb_filter_nonempty.
Qed.

(** ** The aging sweep *)

(** The loop ages the maps from the cursor up to where it stops, in order,
    and stops at the end of the vector at the latest. *)
Lemma age_loop_spec n startTime l idx e :
  let r := age_loop n startTime l idx e in
  (idx <= r.1)%nat /\ ((r.1 <= length l)%nat \/ r.1 = idx) /\
  aged r.2 = aged e ++ take (r.1 - idx) (drop idx l).
Proof.
  revert idx e. induction n as [|n IH]; intros idx e; simpl.
  - replace (idx - idx)%nat with 0%nat by lia. rewrite app_nil_r. auto.
  - destruct (l !! idx) as [m|] eqn:Hm; simpl.
    + destruct (_ <? _) eqn:Hbudget; simpl.
      * specialize (IH (Datatypes.S idx) (age m (tick e))).
        destruct (age_loop n startTime l (Datatypes.S idx) (age m (tick e))) as [j e'].
        simpl in *. destruct IH as (Hle & Hend & Htr). split; [lia|]. split.
        -- destruct Hend as [?|Heq]; [by left|].
           left. rewrite Heq. by apply lookup_lt_Some in Hm.
        -- rewrite Htr, <- app_assoc. f_equal.
           rewrite (drop_S _ _ _ Hm).
           replace (j - idx)%nat with (Datatypes.S (j - Datatypes.S idx)) by lia.
           reflexivity.
      * replace (idx - idx)%nat with 0%nat by lia. rewrite app_nil_r. auto.
    + replace (idx - idx)%nat with 0%nat by lia. rewrite app_nil_r. auto.
Qed.

(** The fuel [length l - idx] is enough: more changes nothing. *)
Lemma age_loop_fuel n n' startTime l idx e :
  (length l - idx <= n)%nat -> (length l - idx <= n')%nat ->
  age_loop n startTime l idx e = age_loop n' startTime l idx e.
Proof.
  revert n' idx e. induction n as [|n IH]; intros n' idx e Hn Hn'.
  - assert (Hnone : l !! idx = None) by (apply lookup_ge_None; lia).
    destruct n'; simpl; [done|]. by rewrite Hnone.
  - simpl. destruct (l !! idx) as [m|] eqn:Hm.
    + apply lookup_lt_Some in Hm as Hlt.
      destruct n' as [|n']; [lia|]. simpl. rewrite Hm.
      destruct (_ <? _); [|done]. apply IH; lia.
    + destruct n'; simpl; [done|]. by rewrite Hm.
Qed.

(** The loop stops before the end only when the budget is used up: with
    the cursor short of the end it has read a clock value at or past the
    budget. *)
Lemma age_loop_stops n startTime l idx e :
  (length l - idx <= n)%nat ->
  let r := age_loop n startTime l idx e in
  (r.1 < length l)%nat ->
  exists k, (clock_reads e <= k)%nat /\ clock_reads r.2 = Datatypes.S k /\
            milliseconds 10 <= steady_clock_now k - startTime.
Proof.
  revert idx e. induction n as [|n IH]; intros idx e Hn; simpl.
  - lia.
  - destruct (l !! idx) as [m|] eqn:Hm; simpl.
    + destruct (Z.ltb_spec (steady_clock_now (clock_reads e) - startTime) (milliseconds 10)).
      * intros Hlt. destruct (IH (Datatypes.S idx) (age m (tick e))) as (k & Hk & ? & ?);
          [lia|done|]. simpl in Hk. exists k. split; [lia|done].
      * simpl. intros _. exists (clock_reads e). done.
    + apply lookup_ge_None in Hm. lia.
Qed.

(** One call: the registry changes in its cursor only; the call ages the
    maps from the cursor on, in order; it returns false with the cursor
    left short of the end, or true with the cursor back at 0 after the last
    map. *)
Lemma allMapsAged_spec wm e b wm' e' :
  (ageIndex wm <= length (maps wm))%nat ->
  allMapsAged wm e = (b, wm', e') ->
  exists idx,
    (age_pass wm e).1 = idx /\
    (ageIndex wm <= idx <= length (maps wm))%nat /\
    aged e' = aged e ++ take (idx - ageIndex wm) (drop (ageIndex wm) (maps wm)) /\
    ((b = false /\ (idx < length (maps wm))%nat /\ wm' = set_ageIndex idx wm) \/
     (b = true /\ idx = length (maps wm) /\ wm' = set_ageIndex 0%nat wm)).
Proof.
  intros Hcur. unfold allMapsAged, age_pass.
  pose proof (age_loop_spec (length (maps wm) - ageIndex wm)
               (steady_clock_now (clock_reads e)) (maps wm) (ageIndex wm) (tick e)) as Hspec.
  destruct (age_loop _ _ _ _ _) as [idx e1]. simpl in Hspec.
  destruct Hspec as (Hle & Hend & Htr).
  destruct (Nat.ltb_spec idx (length (maps wm))); intros [= <- <- <-];
    exists idx; (split; [done|]); (split; [lia|]); (split; [done|]); [left|right];
    (split; [done|]); (split; [lia|done]).
Qed.

Lemma take_slice {A} (l : list A) i j :
  (i <= j)%nat -> take i l ++ take (j - i) (drop i l) = take j l.
Proof.
  intros Hij. rewrite <- (take_drop i (take j l)).
  rewrite take_take, skipn_firstn_comm. f_equal. f_equal. lia.
Qed.

(** Any number of calls in a row: the vector and the dictionary stay, and
    the maps aged so far, after those before the cursor at the start, are
    the whole sweeps completed and then the maps before the cursor. *)
Lemma sweep_calls_spec k wm e bs wm' e' :
  (ageIndex wm <= length (maps wm))%nat ->
  sweep_calls k wm e = (bs, wm', e') ->
  length bs = k /\
  maps wm' = maps wm /\ world_map wm' = world_map wm /\
  (ageIndex wm' <= length (maps wm))%nat /\
  (bs <> [] -> (ageIndex wm' < length (maps wm))%nat \/ ageIndex wm' = 0%nat) /\
  (bs = [] -> ageIndex wm' = ageIndex wm) /\
  (last bs = Some true -> ageIndex wm' = 0%nat) /\
  exists tr,
    aged e' = aged e ++ tr /\
    take (ageIndex wm) (maps wm) ++ tr =
      whole_sweeps (sweeps_done bs) (maps wm) ++ take (ageIndex wm') (maps wm).
Proof.
  revert wm e bs wm' e'. induction k as [|k IH]; intros wm e bs wm' e' Hcur; simpl.
  - intros [= <- <- <-]. repeat (split; [done || lia|]).
    exists []. by rewrite !app_nil_r.
  - destruct (allMapsAged wm e) as [[b wm1] e1] eqn:Hcall.
    destruct (sweep_calls k wm1 e1) as [[bs1 wm2] e2] eqn:Hrest.
    intros [= <- <- <-].
    apply allMapsAged_spec in Hcall as (idx & _ & Hidx & Htr1 & Hb); [|done].
    assert (Hwm1 : maps wm1 = maps wm /\ world_map wm1 = world_map wm /\
                   (ageIndex wm1 <= length (maps wm1))%nat /\
                   take (ageIndex wm) (maps wm)
                     ++ take (idx - ageIndex wm) (drop (ageIndex wm) (maps wm))
                   = whole_sweeps (if b then 1 else 0) (maps wm)
                       ++ take (ageIndex wm1) (maps wm)).
    { rewrite take_slice by lia.
      destruct Hb as [(-> & ? & ->)|(-> & -> & ->)]; simpl.
      - repeat (split; [done || lia|]). done.
      - repeat (split; [done || lia|]). unfold whole_sweeps. simpl.
        by rewrite firstn_all, take_0, !app_nil_r. }
    destruct Hwm1 as (Hm1 & Hw1 & Hcur1 & Hpre).
    apply IH in Hrest as (Hlen & Hm2 & Hw2 & Hcur2 & Hres & Hnil & Hlast & tr2 & Htr2 & Heq2);
      [|done].
    rewrite Hm1 in *. rewrite Hw1 in *.
    split; [simpl; lia|]. repeat (split; [done|]).
    split.
    { intros _. destruct bs1 as [|b1 bs1]; [|by apply Hres].
      rewrite Hnil by done. destruct Hb as [(_ & ? & ->)|(_ & _ & ->)]; simpl; auto. }
    split; [done|]. split.
    { destruct bs1 as [|b1 bs1]; [|exact Hlast].
      simpl. intros [= ->]. rewrite Hnil by done.
      by destruct Hb as [(? & _)|(_ & _ & ->)]. }
    exists (take (idx - ageIndex wm) (drop (ageIndex wm) (maps wm)) ++ tr2).
    split; [by rewrite Htr2, Htr1, app_assoc|].
    rewrite app_assoc, Hpre, <- app_assoc, Heq2.
    unfold sweeps_done, whole_sweeps. simpl.
    destruct b; simpl.
    + destruct (Bool.bool_dec true true); [|done]. simpl.
      by rewrite app_nil_r, app_assoc.
    + destruct (Bool.bool_dec false true); [done|]. done.
Qed.

Lemma count_occ_whole_sweeps t (l : list ptr) p :
  NoDup l -> p ∈ l -> count_occ Pos.eq_dec (whole_sweeps t l) p = t.
Proof.
  intros Hnd Hp. unfold whole_sweeps, ptr in *.
  induction t as [|t IH]; [done|].
  change (count_occ Pos.eq_dec (l ++ mjoin (replicate t l)) p = Datatypes.S t).
  rewrite count_occ_app, IH.
  assert (count_occ Pos.eq_dec l p = 1%nat) as ->; [|done].
  apply NoDup_ListNoDup in Hnd.
  apply (proj1 (NoDup_count_occ' Pos.eq_dec l) Hnd p). by apply list_elem_of_In.
Qed.

(** C2: take a registry with the cursor at 0 and any readings of the clock,
    and let [k] calls of [allMapsAged] follow one another. The vector and
    the dictionary stay. The [age()] calls made are, in order, one whole
    pass over the vector for each call that returned true, then the maps
    before the cursor; so when the last call returned true every registered
    map was aged once for each call that returned true (once, at the first
    such call), and the cursor is back at 0. A further call starts at the
    cursor: it returns false exactly when its loop leaves the cursor short
    of the end, and keeps it there; otherwise the cursor has reached the
    end, is set to 0 and the call returns true; after a call that returned
    true it ages a prefix of the vector, from the first map. *)
Theorem allMapsAged_sweep wm e k bs wm' e' :
  ageIndex wm = 0%nat ->
  NoDup (maps wm) ->
  sweep_calls k wm e = (bs, wm', e') ->
  (maps wm' = maps wm /\ world_map wm' = world_map wm) /\
  (exists tr,
     aged e' = aged e ++ tr /\
     tr = whole_sweeps (sweeps_done bs) (maps wm) ++ take (ageIndex wm') (maps wm) /\
     (last bs = Some true ->
      ageIndex wm' = 0%nat /\
      forall p, p ∈ maps wm -> count_occ Pos.eq_dec tr p = sweeps_done bs)) /\
  (forall e2 b wm2 e3,
     allMapsAged wm' e2 = (b, wm2, e3) ->
     exists idx,
       (age_pass wm' e2).1 = idx /\
       (ageIndex wm' <= idx <= length (maps wm))%nat /\
       (b = false <-> (idx < length (maps wm))%nat) /\
       (b = false -> ageIndex wm2 = idx) /\
       (b = true -> idx = length (maps wm) /\ ageIndex wm2 = 0%nat) /\
       aged e3 = aged e2 ++ take (idx - ageIndex wm') (drop (ageIndex wm') (maps wm)) /\
       (last bs = Some true -> aged e3 = aged e2 ++ take idx (maps wm))).
Proof.
  intros Hstart Hnd Hrun.
  apply sweep_calls_spec in Hrun
    as (_ & Hm & Hw & Hcur & _ & _ & Hlast & tr & Htr & Heq); [|lia].
  rewrite Hstart in Heq. simpl in Heq.
  split; [done|]. split.
  - exists tr. split; [done|]. split; [done|].
    intros Htrue. specialize (Hlast Htrue). split; [done|].
    intros p Hp. rewrite Heq, Hlast, take_0, app_nil_r.
    by apply count_occ_whole_sweeps.
  - intros e2 b wm2 e3 Hcall.
    apply allMapsAged_spec in Hcall as (idx & Hpass & Hidx & Haged & Hb); [|by rewrite Hm].
    rewrite Hm in *. exists idx.
    split; [done|]. split; [done|]. split.
    { destruct Hb as [(-> & ? & _)|(-> & -> & _)]; split; (done || lia). }
    split.
    { intros ->. by destruct Hb as [(_ & _ & ->)|(? & _)]. }
    split.
    { intros ->. by destruct Hb as [(? & _)|(_ & -> & ->)]. }
    split; [done|].
    intros Htrue. rewrite Haged, (Hlast Htrue). simpl. by rewrite Nat.sub_0_r.
Qed.

(** ** Escaping *)

Lemma string_app_assoc (a b c : string) : (a +:+ b) +:+ c = a +:+ (b +:+ c).
Proof.
  induction a as [|x a IH]; [done|].
  change (String x ((a +:+ b) +:+ c) = String x (a +:+ (b +:+ c))). by f_equal.
Qed.

Lemma string_app_nil_l (a : string) : EmptyString +:+ a = a.
Proof. reflexivity. Qed.

Lemma string_app_nil_r (a : string) : a +:+ EmptyString = a.
Proof.
  induction a as [|x a IH]; [done|].
  change (String x (a +:+ EmptyString) = String x a). by f_equal.
Qed.

Lemma string_flat_map_app f (a b : string) :
  string_flat_map f (a +:+ b) = string_flat_map f a +:+ string_flat_map f b.
Proof.
  induction a as [|x a IH]; [done|].
  change (String x a +:+ b) with (String x (a +:+ b)).
  cbn [string_flat_map]. by rewrite IH, string_app_assoc.
Qed.

Lemma string_flat_map_compose f g (s : string) :
  string_flat_map g (string_flat_map f s)
  = string_flat_map (fun c => string_flat_map g (f c)) s.
Proof.
  induction s as [|x s IH]; [done|].
  cbn [string_flat_map]. by rewrite string_flat_map_app, IH.
Qed.

Lemma string_flat_map_ext f g (s : string) :
  (forall c, f c = g c) -> string_flat_map f s = string_flat_map g s.
Proof.
  intros H. induction s as [|x s IH]; [done|].
  cbn [string_flat_map]. by rewrite H, IH.
Qed.

(** [replace_all] with a search text of one character works character by
    character. *)
Lemma replace_all_char (a : ascii) (format s : string) :
  replace_all s (String a EmptyString) format = string_flat_map (subst_char a format) s.
Proof.
  unfold replace_all. induction s as [|c s IH]; [done|].
  cbn [replace_all_from string_flat_map String.prefix String.length].
  change (1 - 1)%nat with 0%nat. rewrite IH. clear IH.
  set (rest := string_flat_map (subst_char a format) s). unfold subst_char.
  destruct (ascii_dec a c) as [->|Hne].
  - rewrite Ascii.eqb_refl. by destruct s.
  - destruct (Ascii.eqb_spec c a) as [->|_]; [done|]. reflexivity.
Qed.

(** The three replacements in the order of [exportTo] put a backslash
    before each special character and leave the others. *)
Lemma escape_chars (s : string) : escape s = string_flat_map escape_char s.
Proof.
  unfold escape. rewrite !replace_all_char, !string_flat_map_compose.
  apply string_flat_map_ext. intros c.
  unfold subst_char at 3.
  destruct (Ascii.eqb_spec c "\"%char) as [->|Hb]; [reflexivity|].
  cbn [string_flat_map]. rewrite string_app_nil_r. unfold subst_char at 2.
  destruct (Ascii.eqb_spec c "="%char) as [->|He]; [reflexivity|].
  cbn [string_flat_map]. rewrite string_app_nil_r. unfold subst_char, escape_char, special.
  destruct (Ascii.eqb_spec c ";"%char) as [->|Hs]; [reflexivity|].
  apply Ascii.eqb_neq in Hb, He. by rewrite Hb, He.
Qed.

Lemma escaped_from_escape_char c (rest : string) :
  escaped_from false (escape_char c +:+ rest) = escaped_from false rest.
Proof.
  unfold escape_char, special.
  destruct (Ascii.eqb c "\"%char) eqn:Hb, (Ascii.eqb c "="%char) eqn:He,
    (Ascii.eqb c ";"%char) eqn:Hs; simpl; unfold special;
    rewrite ?Hb, ?He, ?Hs; done.
Qed.

Lemma unescape_from_escape_char c (rest : string) :
  unescape_from false (escape_char c +:+ rest) = String c (unescape_from false rest).
Proof.
  unfold escape_char, special.
  destruct (Ascii.eqb c "\"%char) eqn:Hb, (Ascii.eqb c "="%char) eqn:He,
    (Ascii.eqb c ";"%char) eqn:Hs; simpl; rewrite ?Hb; done.
Qed.

Lemma well_escaped_escape (s : string) : well_escaped (escape s) = true.
Proof.
  rewrite escape_chars. unfold well_escaped.
  induction s as [|c s IH]; [done|].
  cbn [string_flat_map]. by rewrite escaped_from_escape_char.
Qed.

Lemma unescape_escape (s : string) : unescape (escape s) = s.
Proof.
  rewrite escape_chars. unfold unescape.
  induction s as [|c s IH]; [done|].
  cbn [string_flat_map]. by rewrite unescape_from_escape_char, IH.
Qed.

(** A reader that cuts at a separator that is not escaped passes over an
    escaped text without cutting. *)
Lemma split_from_escape_char sep cur c (tail : string) :
  special sep = true ->
  split_from sep false cur (escape_char c +:+ tail)
  = split_from sep false (cur +:+ escape_char c) tail.
Proof.
  intros Hsep. unfold escape_char. destruct (special c) eqn:Hc.
  - simpl. by rewrite string_app_assoc.
  - assert (Hne : c <> sep) by (intros ->; congruence).
    simpl. unfold special in Hc.
    destruct (Ascii.eqb_spec c "\"%char) as [->|_]; [done|].
    by destruct (Ascii.eqb_spec c sep).
Qed.

Lemma split_from_escape sep cur (s rest : string) :
  special sep = true ->
  split_from sep false cur (escape s +:+ rest)
  = split_from sep false (cur +:+ escape s) rest.
Proof.
  intros Hsep. rewrite escape_chars. revert cur.
  induction s as [|c s IH]; intros cur.
  - cbn [string_flat_map]. by rewrite string_app_nil_r.
  - cbn [string_flat_map].
    rewrite string_app_assoc, split_from_escape_char, IH by done.
    by rewrite string_app_assoc.
Qed.

Lemma split_from_sep sep cur (rest : string) :
  Ascii.eqb sep "\"%char = false ->
  split_from sep false cur (String sep rest) = cur :: split_from sep false EmptyString rest.
Proof. intros Hsep. cbn. by rewrite Hsep, Ascii.eqb_refl. Qed.

Lemma read_pair_escape (key value : string) :
  read_pair (escape key +:+ "=" +:+ escape value) = Some (key, value).
Proof.
  unfold read_pair, split_unescaped.
  rewrite split_from_escape by done.
  change ("=" +:+ escape value) with (String "="%char (escape value)).
  rewrite split_from_sep by done.
  rewrite <- (string_app_nil_r (escape value)) at 1.
  rewrite split_from_escape by done. cbn [split_from].
  by rewrite !string_app_nil_l, !unescape_escape.
Qed.

(** The data of an item line is the pieces [;key=value], one after the
    other. *)
Lemma fold_left_export_data kvs (line : string) :
  fold_left export_data kvs line
  = line +:+ fold_right (fun kv text => ";" +:+ escape kv.1 +:+ "=" +:+ escape kv.2 +:+ text)
                        EmptyString kvs.
Proof.
  revert line. induction kvs as [|[k v] kvs IH]; intros line; simpl fold_left.
  - cbn. by rewrite string_app_nil_r.
  - rewrite IH. unfold export_data. cbn [fst snd fold_right].
    by rewrite !string_app_assoc.
Qed.

Lemma split_data_text cur kvs :
  split_from ";"%char false cur
    (fold_right (fun kv text => ";" +:+ escape kv.1 +:+ "=" +:+ escape kv.2 +:+ text)
                EmptyString kvs)
  = cur :: List.map (fun kv => escape kv.1 +:+ "=" +:+ escape kv.2) kvs.
Proof.
  revert cur. induction kvs as [|[k v] kvs IH]; intros cur; [done|].
  cbn [fold_right List.map fst snd].
  change (";" +:+ ?x) with (String ";"%char x).
  rewrite split_from_sep by done.
  rewrite split_from_escape by done.
  change ("=" +:+ ?x) with (String "="%char x).
  cbn [split_from Ascii.eqb Bool.eqb andb].
  rewrite split_from_escape by done. rewrite IH. f_equal.
  by rewrite !string_app_nil_l, !string_app_assoc.
Qed.

Lemma read_data_export kvs :
  read_data (fold_left export_data kvs EmptyString) = Some kvs.
Proof.
  unfold read_data, split_unescaped. rewrite fold_left_export_data.
  rewrite string_app_nil_l, split_data_text.
  induction kvs as [|[k v] kvs IH]; [done|].
  cbn [List.map read_pairs fst snd]. by rewrite read_pair_escape, IH.
Qed.

(** C6: the exporter's escaping is the three replacements, backslash
    first, then [=], then [;]; what it yields puts a backslash before each
    of the three characters and changes nothing else, so the escaped key and
    the escaped value hold none of them outside an escape sequence and read
    back as the key and the value, and the data of an item line, cut at the
    separators that are not escaped, reads back as the data map; for the
    key [a=b;c\d] and the value [x\y] the pair is written as
    [;a\=b\;c\\d=x\\y]. *)
Theorem exportTo_escape (key value line : string) (kvs : list (string * string)) :
  escape key = replace_all (replace_all (replace_all key "\" "\\") "=" "\=") ";" "\;" /\
  escape key = string_flat_map escape_char key /\
  export_data line (key, value) = line +:+ ";" +:+ escape key +:+ "=" +:+ escape value /\
  well_escaped (escape key) = true /\ well_escaped (escape value) = true /\
  unescape (escape key) = key /\ unescape (escape value) = value /\
  read_data (fold_left export_data kvs EmptyString) = Some kvs /\
  export_data EmptyString ("a=b;c\d", "x\y") = ";a\=b\;c\\d=x\\y".
Proof.
  split; [done|]. split; [apply escape_chars|]. split; [done|].
  rewrite !well_escaped_escape, !unescape_escape, read_data_export. done.
Qed.

(** ** The text export *)

Lemma open_streams_spec base d :
  exists d',
    open_streams base d = (streams_good (opened d) base, d') /\
    opened d' = (3 + opened d)%nat /\
    (forall path, is_Some (files d !! path) -> is_Some (files d' !! path)) /\
    (forall path,
       path ∉ [tiles_path base; items_path base; warps_path base] ->
       files d' !! path = files d !! path).
Proof.
  unfold open_streams, streams_good, ofstream_open.
  repeat (match goal with
          | |- context [open_ok ?k ?path] => destruct (open_ok k path)
          end; simpl);
    eexists; (split; [reflexivity|]); simpl; (split; [done|]); split;
    intros path; rewrite ?lookup_insert; repeat case_decide;
    rewrite ?not_elem_of_cons; try (intros (? & ? & ? & _)); eauto; congruence.
Qed.

(** The call returns true exactly when every stream opened. *)
Lemma exportTo_from_result fuel exportDir l d b d' :
  exportTo_from fuel exportDir l d = Some (b, d') ->
  b = all_open (opened d) exportDir l.
Proof.
  revert d. induction l as [|p l IH]; intros d; simpl.
  - by intros [= <- <-].
  - fold (map_base exportDir p).
    destruct (open_streams_spec (map_base exportDir p) d) as (d1 & -> & Hk & _).
    destruct (streams_good (opened d) (map_base exportDir p)); simpl.
    + destruct (export_rows _ _ _ _ _) as [st|]; [|discriminate].
      intros Hrun. apply IH in Hrun. simpl in Hrun. by rewrite Hk in Hrun.
    + by intros [= <- <-].
Qed.

(** A call that returns false has exported the maps before the first one
    with a stream that did not open, has opened the streams of that one,
    and has done nothing else. *)
Lemma exportTo_from_false fuel exportDir l d d' :
  exportTo_from fuel exportDir l d = Some (false, d') ->
  exists l1 p l2 d1,
    l = l1 ++ p :: l2 /\
    exportTo_from fuel exportDir l1 d = Some (true, d1) /\
    opened d1 = (3 * length l1 + opened d)%nat /\
    open_streams (map_base exportDir p) d1 = (false, d').
Proof.
  revert d. induction l as [|p l IH]; intros d; simpl.
  - discriminate.
  - fold (map_base exportDir p).
    destruct (open_streams (map_base exportDir p) d) as [good d1] eqn:Hopen.
    destruct good.
    + destruct (export_rows _ _ _ _ _) as [st|] eqn:Hrows; [|discriminate].
      intros Hrun. apply IH in Hrun as (l1 & q & l2 & d2 & -> & Hl1 & Hk & Hq).
      exists (p :: l1), q, l2, d2. split; [done|]. simpl.
      fold (map_base exportDir p). rewrite Hopen, Hrows.
      split; [done|]. split; [|done].
      destruct (open_streams_spec (map_base exportDir p) d) as (d1' & Hd1 & Hk1 & _).
      rewrite Hopen in Hd1. injection Hd1 as _ <-.
      rewrite Hk. simpl. lia.
    + intros [= <-]. exists [], p, l, d. simpl. done.
Qed.

(** The loops over the cells of a map return, given fuel for its larger
    side. *)
Lemma export_rows_total fuel m st :
  loops_end 16 m -> (export_fuel m <= fuel)%nat ->
  exists st', export_rows fuel m (export_minX m) (export_minY m) st = Some st'.
Proof.
  intros [HX HY] Hfuel. unfold export_rows, export_fuel, GetMaxX, GetMaxY in *.
  assert (H16 : in_signed 16 0) by (unfold in_signed, smin, smax; simpl; lia).
  apply for_le_total; [by eapply wrap_range|done|lia|].
  intros y st1. unfold export_row, GetMaxX.
  apply for_le_total; [by eapply wrap_range|done|lia|].
  intros x st2. unfold export_cell. destruct (GetCFieldAt m x y); eauto.
Qed.

Lemma exportTo_from_total fuel exportDir l d :
  (forall p, p ∈ l -> loops_end 16 (heap p) /\ (export_fuel (heap p) <= fuel)%nat) ->
  exists d', exportTo_from fuel exportDir l d = Some (all_open (opened d) exportDir l, d').
Proof.
  revert d. induction l as [|p l IH]; intros d Hl; simpl; [eauto|].
  fold (map_base exportDir p).
  destruct (open_streams_spec (map_base exportDir p) d) as (d1 & -> & Hk & _).
  destruct (streams_good (opened d) (map_base exportDir p)); simpl; [|eauto].
  destruct (Hl p) as [Hend Hfuel]; [by left|].
  destruct (export_rows_total fuel (heap p)
              {| fieldsf := tiles_header (heap p) (export_minX (heap p)) (export_minY (heap p));
                 itemsf := EmptyString; warpsf := EmptyString |} Hend Hfuel) as [st ->].
  destruct (IH (close_streams (map_base exportDir p) st d1)) as [d' Hd'].
  { intros q Hq. apply Hl. by right. }
  simpl in Hd'. rewrite Hk in Hd'. eauto.
Qed.

(** C7: a call of [exportTo] that returns gives true exactly when every
    stream of every map opened. When it gives false, the maps before the
    first one with a stream that did not open were exported in full, the
    streams of that one were opened, and nothing else was done: no later
    map is touched, no file on disk is removed, and every file other than
    the three of that map is as the export of the earlier maps left it.
    A call returns once the loops have fuel for every map. *)
Theorem exportTo_open_failure fuel exportDir wm d :
  (forall b d',
     exportTo fuel exportDir wm d = Some (b, d') ->
     b = all_open (opened d) exportDir (maps wm) /\
     (b = false ->
      exists l1 p l2 d1,
        maps wm = l1 ++ p :: l2 /\
        all_open (opened d) exportDir l1 = true /\
        streams_good (3 * length l1 + opened d) (map_base exportDir p) = false /\
        exportTo_from fuel exportDir l1 d = Some (true, d1) /\
        open_streams (map_base exportDir p) d1 = (false, d') /\
        (forall path, is_Some (files d1 !! path) -> is_Some (files d' !! path)) /\
        (forall path,
           path ∉ [tiles_path (map_base exportDir p); items_path (map_base exportDir p);
                   warps_path (map_base exportDir p)] ->
           files d' !! path = files d1 !! path))) /\
  ((forall p, p ∈ maps wm ->
      loops_end 16 (heap p) /\ (export_fuel (heap p) <= fuel)%nat) ->
   exists d',
     exportTo fuel exportDir wm d = Some (all_open (opened d) exportDir (maps wm), d')).
Proof.
  unfold exportTo. split.
  - intros b d' Hrun. split; [by eapply exportTo_from_result|].
    intros ->. apply exportTo_from_false in Hrun as (l1 & p & l2 & d1 & Hl & Hl1 & Hk & Hopen).
    exists l1, p, l2, d1. split; [done|].
    pose proof (exportTo_from_result _ _ _ _ _ _ Hl1) as Hall.
    destruct (open_streams_spec (map_base exportDir p) d1) as (d2 & Heq & _ & Hdom & Hother).
    rewrite Hopen in Heq. injection Heq as Hgood <-.
    rewrite Hk in Hgood. done.
  - apply exportTo_from_total.
Qed.

(** ** The binary snapshot *)

Lemma string_length_app (a b : string) :
  String.length (a +:+ b) = (String.length a + String.length b)%nat.
Proof.
  induction a as [|x a IH]; [done|].
  change (Datatypes.S (String.length (a +:+ b))
          = Datatypes.S (String.length a + String.length b)). by f_equal.
Qed.

Lemma spaces_length n : String.length (spaces n) = n.
Proof. unfold spaces. induction n as [|n IH]; simpl; [done|]. by f_equal. Qed.

(** [%6d] pads to six characters and never cuts. *)
Lemma pad6_spec z :
  String.length (pad6 z) = Nat.max 6 (String.length (to_string z)) /\
  ((6 <= String.length (to_string z))%nat -> pad6 z = to_string z) /\
  ((String.length (to_string z) < 6)%nat -> pad6 z <> to_string z).
Proof.
  unfold pad6. split; [|split].
  - rewrite string_length_app, spaces_length. lia.
  - intros H. by replace (6 - String.length (to_string z))%nat with 0%nat by lia.
  - intros H Heq. apply (f_equal String.length) in Heq.
    rewrite string_length_app, spaces_length in Heq. lia.
Qed.

(** The loop writes one record and makes one [Save] call for each map, in
    the order of the vector. *)
Lemma save_maps_spec prefix l log log' :
  save_maps prefix l log = Some log' ->
  mapinitfile log' = mapinitfile log ++ flat_map (fun p => save_record (heap p)) l /\
  Save_calls log' = Save_calls log ++ List.map (fun p => (p, mname_text prefix (heap p))) l /\
  (forall p, p ∈ l -> (String.length (mname_text prefix (heap p)) < 200)%nat).
Proof.
  revert log. induction l as [|p l IH]; intros log; simpl.
  - intros [= <-]. rewrite !app_nil_r. split; [done|]. split; [done|].
    intros p Hp. by apply elem_of_nil in Hp.
  - unfold sprintf_mname.
    destruct (Nat.ltb_spec (String.length (mname_text prefix (heap p))) 200); [|discriminate].
    intros Hrun. apply IH in Hrun as (Hfile & Hcalls & Hfit). simpl in *.
    rewrite Hfile, Hcalls, <- !app_assoc. split; [done|]. split; [done|].
    intros q [->|Hq]%elem_of_cons; auto.
Qed.

Lemma save_maps_total prefix l log :
  (forall p, p ∈ l -> (String.length (mname_text prefix (heap p)) < 200)%nat) ->
  exists log', save_maps prefix l log = Some log'.
Proof.
  revert log. induction l as [|p l IH]; intros log Hfit; simpl; [eauto|].
  unfold sprintf_mname.
  destruct (Nat.ltb_spec (String.length (mname_text prefix (heap p))) 200) as [_|Hge].
  - apply IH. intros q Hq. apply Hfit. by right.
  - assert (Hp : p ∈ p :: l) by by left. specialize (Hfit p Hp). lia.
Qed.

(** What a call that has created the index file leaves. *)
Lemma saveToDisk_Saved prefix wm name log :
  saveToDisk true prefix wm = Saved name log ->
  name = c_str (prefix +:+ "_initmaps") /\
  mapinitfile log = Obj 2 (uwrap 16 (Z.of_nat (length (maps wm))))
                      :: flat_map (fun p => save_record (heap p)) (maps wm) /\
  Save_calls log = List.map (fun p => (p, mname_text prefix (heap p))) (maps wm) /\
  (forall p, p ∈ maps wm -> (String.length (mname_text prefix (heap p)) < 200)%nat).
Proof.
  unfold saveToDisk.
  destruct (save_maps _ _ _) as [log1|] eqn:Hrun; [|discriminate].
  intros [= <- <-]. apply save_maps_spec in Hrun as (Hfile & Hcalls & Hfit).
  simpl in *. done.
Qed.

Lemma saveToDisk_total prefix wm :
  (forall p, p ∈ maps wm -> (String.length (mname_text prefix (heap p)) < 200)%nat) ->
  exists log, saveToDisk true prefix wm = Saved (c_str (prefix +:+ "_initmaps")) log.
Proof.
  intros Hfit. unfold saveToDisk.
  destruct (save_maps_total prefix (maps wm)
              {| mapinitfile := [Obj 2 (uwrap 16 (Z.of_nat (length (maps wm))))];
                 Save_calls := [] |} Hfit) as [log ->]. eauto.
Qed.

Lemma flat_map_records_length (l : list ptr) :
  length (flat_map (fun p => save_record (heap p)) l) = (5 * length l)%nat.
Proof. induction l as [|p l IH]; simpl; [done|]. rewrite IH. lia. Qed.

Lemma flat_map_records_size (l : list ptr) :
  file_size (flat_map (fun p => save_record (heap p)) l)
  = Z.of_nat (length l) * (3 * Z.pos coord_bytes + 4).
Proof.
  induction l as [|p l IH]; [done|].
  cbn [flat_map save_record app file_size fold_right chunk_size length].
  fold (file_size (flat_map (fun p => save_record (heap p)) l)). rewrite IH. lia.
Qed.

Lemma flat_map_records_lookup (l : list ptr) i p :
  l !! i = Some p ->
  take 5 (drop (5 * i) (flat_map (fun p => save_record (heap p)) l)) = save_record (heap p).
Proof.
  revert i. induction l as [|q l IH]; intros i; [done|].
  destruct i as [|i]; simpl.
  - by intros [= ->].
  - intros Hi. replace (i + Datatypes.S (i + Datatypes.S (i + Datatypes.S (i + Datatypes.S (i + 0)))))%nat
      with (4 + 5 * i)%nat by lia. simpl. by apply IH.
Qed.

(** C8, as amended: when the index file was created, fewer than 65536
    maps are registered and the name formatted for every registered map has
    fewer than 200 characters (so that it fits the buffer [mname] with its
    closing NUL), [saveToDisk] leaves the file named [prefix_initmaps],
    which holds a 16-bit count equal to the number of registered maps and
    then, for each map in the order of registration, the five objects
    z-level, least x, least y (each of the size of a coordinate), width and
    height (16 bits each), and nothing else. *)
Theorem saveToDisk_index prefix wm :
  Z.of_nat (length (maps wm)) < 65536 ->
  (forall p, p ∈ maps wm -> (String.length (mname_text prefix (heap p)) < 200)%nat) ->
  exists log,
    saveToDisk true prefix wm = Saved (c_str (prefix +:+ "_initmaps")) log /\
    mapinitfile log = Obj 2 (Z.of_nat (length (maps wm)))
                        :: flat_map (fun p => save_record (heap p)) (maps wm) /\
    length (mapinitfile log) = (1 + 5 * length (maps wm))%nat /\
    (forall i p,
       maps wm !! i = Some p ->
       take 5 (drop (1 + 5 * i) (mapinitfile log))
       = [ Obj (Z.pos coord_bytes) (Z_Level (heap p));
           Obj (Z.pos coord_bytes) (Min_X (heap p));
           Obj (Z.pos coord_bytes) (Min_Y (heap p));
           Obj 2 (Width (heap p));
           Obj 2 (Height (heap p)) ]) /\
    file_size (mapinitfile log)
    = 2 + Z.of_nat (length (maps wm)) * (3 * Z.pos coord_bytes + 4).
Proof.
  intros Hcount Hfit.
  destruct (saveToDisk_total prefix wm Hfit) as [log Hrun].
  exists log. split; [exact Hrun|].
  apply saveToDisk_Saved in Hrun as (_ & Hfile & _ & _).
  unfold uwrap in Hfile. change (2 ^ 16) with 65536 in Hfile.
  rewrite Z.mod_small in Hfile by lia.
  split; [done|]. rewrite Hfile. split; [|split].
  - simpl. by rewrite flat_map_records_length.
  - intros i p Hi. simpl. by apply flat_map_records_lookup.
  - cbn [file_size fold_right chunk_size]. fold (file_size (flat_map (fun p => save_record (heap p)) (maps wm))).
    rewrite flat_map_records_size. lia.
Qed.

(** C9, as amended: when the index file was created and the name
    formatted for every registered map has fewer than 200 characters (so
    that it fits the buffer [mname] with its closing NUL), [Save] is called
    once for each registered map, in the order of registration, with the
    name made of the prefix (as a C string), an underscore, the z-level, an
    underscore, the least x, an underscore and the least y, where each
    number is written in decimal, right-aligned in a field of six
    characters, padded with spaces on the left and never cut. *)
Theorem saveToDisk_Save_names prefix wm :
  (forall p, p ∈ maps wm -> (String.length (mname_text prefix (heap p)) < 200)%nat) ->
  (exists name log,
     saveToDisk true prefix wm = Saved name log /\
     Save_calls log
     = List.map (fun p => (p, c_str prefix +:+ "_" +:+ pad6 (Z_Level (heap p))
                                +:+ "_" +:+ pad6 (Min_X (heap p))
                                +:+ "_" +:+ pad6 (Min_Y (heap p))))
                (maps wm)) /\
  (forall z,
     String.length (pad6 z) = Nat.max 6 (String.length (to_string z)) /\
     ((6 <= String.length (to_string z))%nat -> pad6 z = to_string z) /\
     ((String.length (to_string z) < 6)%nat -> pad6 z <> to_string z)).
Proof.
  intros Hfit. split; [|apply pad6_spec].
  destruct (saveToDisk_total prefix wm Hfit) as [log Hrun].
  eexists _, log. split; [exact Hrun|].
  by apply saveToDisk_Saved in Hrun as (_ & _ & ? & _).
Qed.

(** ** More of the registry *)

(** What [InsertMap] does to the vector and the cursor; the bounds play no
    part. *)
Lemma InsertMap_vector fuel wm newMap b wm' :
  InsertMap fuel wm newMap = Some (b, wm') ->
  ageIndex wm' = ageIndex wm /\
  ((b = false /\ wm' = wm) \/
   (b = true /\ exists p, newMap = Some p /\ (p ∉ maps wm) /\ maps wm' = maps wm ++ [p])).
Proof.
  unfold InsertMap. destruct newMap as [p|].
  - destruct (registered p (maps wm)) eqn:Hreg.
    + intros [= <- <-]. auto.
    + destruct (write_cells fuel p (world_map wm)) as [w|]; [|discriminate].
      intros [= <- <-]. split; [done|]. right. split; [done|]. exists p.
      split; [done|]. split; [|done]. by rewrite <- registered_elem_of, Hreg.
  - intros [= <- <-]. auto.
Qed.

Lemma last_covering_snoc l p pos :
  last (filter (fun q => covers (heap q) pos) (l ++ [p]))
  = if decide (covers (heap p) pos) then Some p
    else last (filter (fun q => covers (heap q) pos) l).
Proof.
  rewrite filter_app. destruct (decide (covers (heap p) pos)) as [Hc|Hc].
  - rewrite filter_cons_True by done. rewrite filter_nil. apply last_snoc.
  - rewrite filter_cons_False by done. by rewrite filter_nil, app_nil_r.
Qed.

(** X1: in every reachable state the dictionary is determined by the
    vector: [findMapForPos] gives the map registered last among those whose
    bounds cover the position. So it gives the null reference exactly when no
    registered map covers the position, and a map it gives is registered and
    covers the position. *)
Theorem findMapForPos_last_registered wm :
  wf_heap ->
  reachable wm ->
  (forall pos, findMapForPos wm pos = last_covering wm pos) /\
  (forall pos, findMapForPos wm pos = None
               <-> forall p, p ∈ maps wm -> ~ covers (heap p) pos) /\
  (forall pos q, findMapForPos wm pos = Some q -> q ∈ maps wm /\ covers (heap q) pos).
Proof.
  intros Hwf Hreach.
  assert (Hlast : forall pos, findMapForPos wm pos = last_covering wm pos).
  { unfold findMapForPos, last_covering.
    induction Hreach as [|wm _ _|wm fuel newMap b wm' _ IH Hrun|wm e b wm' e' _ IH Hrun];
      intros pos.
    - cbn [world_map maps empty_WorldMap]. by rewrite lookup_empty.
    - cbn [world_map maps clear]. by rewrite lookup_empty.
    - apply InsertMap_cases in Hrun
        as [(_ & -> & _)|(_ & p & _ & _ & -> & _ & Hw)]; [done| |by auto].
      rewrite last_covering_snoc. destruct (Hw pos) as [Hin Hout].
      destruct (decide (covers (heap p) pos)) as [Hc|Hc].
      + by apply Hin.
      + rewrite (Hout Hc). apply IH.
    - destruct (allMapsAged_registry wm e) as [i Hi].
      rewrite Hrun in Hi. simpl in Hi. subst wm'. apply IH. }
  split; [exact Hlast|]. split.
  - intros pos. rewrite Hlast. unfold last_covering. split.
    + intros Hnil%last_None p Hp Hc.
      assert (Hin : p ∈ filter (fun q => covers (heap q) pos) (maps wm))
        by (apply list_elem_of_filter; done).
      rewrite Hnil in Hin. by apply elem_of_nil in Hin.
    + intros Hnone. apply last_None.
      destruct (filter _ (maps wm)) as [|q l] eqn:Hf; [done|].
      assert (Hin : q ∈ filter (fun q => covers (heap q) pos) (maps wm))
        by (rewrite Hf; left).
      apply list_elem_of_filter in Hin as [Hc Hq]. by destruct (Hnone q).
  - intros pos q. rewrite Hlast. unfold last_covering. intros Hq.
    apply last_Some_elem_of in Hq. apply list_elem_of_filter in Hq as [Hc Hq]. done.
Qed.

(** X2: no reference is registered twice: in every reachable state each
    registered map stands at one index of the vector only. *)
Theorem maps_registered_once wm :
  wf_heap ->
  reachable wm ->
  NoDup (maps wm) /\
  (forall i j p, maps wm !! i = Some p -> maps wm !! j = Some p -> i = j).
Proof.
  intros Hwf Hreach. pose proof (reachable_NoDup wm Hwf Hreach) as Hnd.
  split; [done|]. intros i j p Hi Hj. by eapply NoDup_lookup.
Qed.

(** X3: how the region queries follow registration. After a call of
    [InsertMap] that returned true for the map at [p], [findAllMapsInRangeOf]
    gives what it gave before, followed by [p] when [p] intersects the
    rectangle, and [mapInRangeOf] is what it was before or that test on [p];
    after [clear] the first gives the empty list and the second false. *)
Theorem region_queries_follow_registration fuel wm newMap wm' :
  InsertMap fuel wm newMap = Some (true, wm') ->
  exists p,
    newMap = Some p /\
    (forall rnorth rsouth reast rwest pos,
       findAllMapsInRangeOf wm' rnorth rsouth reast rwest pos
       = findAllMapsInRangeOf wm rnorth rsouth reast rwest pos
         ++ (if intersects (heap p)
                  (MAP_POSITION_of (pos_x pos - rwest) (pos_y pos - rnorth))
                  (MAP_POSITION_of (pos_x pos + reast) (pos_y pos + rsouth)) (pos_z pos)
             then [p] else [])) /\
    (forall upperleft dx dy,
       mapInRangeOf wm' upperleft dx dy
       = mapInRangeOf wm upperleft dx dy
         || intersects (heap p) (to_MAP_POSITION upperleft)
              (MAP_POSITION_of (pos_x upperleft + dx - 1) (pos_y upperleft + dy - 1))
              (pos_z upperleft)) /\
    (forall rnorth rsouth reast rwest pos,
       findAllMapsInRangeOf (clear wm') rnorth rsouth reast rwest pos = []) /\
    (forall upperleft dx dy, mapInRangeOf (clear wm') upperleft dx dy = false).
Proof.
  intros Hrun. apply InsertMap_vector in Hrun as [_ [[? _]|(_ & p & -> & _ & Hmaps)]]; [done|].
  exists p. split; [done|]. split; [|split; [|done]].
  - intros rnorth rsouth reast rwest pos. unfold findAllMapsInRangeOf.
    rewrite Hmaps, List.filter_app. simpl. by destruct (intersects _ _ _ _).
  - intros upperleft dx dy. unfold mapInRangeOf.
    rewrite Hmaps, existsb_app. simpl. by rewrite orb_false_r.
Qed.

(** X4: a map whose rectangle is not empty and reaches the largest value of
    the coordinate type cannot be registered: the condition of the loop
    over that coordinate never fails, and the call does not return, whatever
    the fuel. *)
Theorem InsertMap_never_returns wm p :
  wf_Map (heap p) ->
  p ∉ maps wm ->
  Min_X (heap p) <= Max_X (heap p) ->
  Max_X (heap p) = smax coord_bits \/
    (Min_Y (heap p) <= Max_Y (heap p) /\ Max_Y (heap p) = smax coord_bits) ->
  forall fuel, InsertMap fuel wm (Some p) = None.
Proof. intros Hwf Hnew Hx Htop fuel. by apply InsertMap_diverges. Qed.

(** ** More of the aging sweep *)

(** The loop ages one map for each reading within the budget, and stops
    at the first reading past it or at the end of the vector. *)
Lemma age_loop_budget n startTime l idx e :
  (length l - idx <= n)%nat ->
  let r := age_loop n startTime l idx e in
  let k := (r.1 - idx)%nat in
  (idx <= r.1)%nat /\
  (forall j, (j < k)%nat ->
             steady_clock_now (clock_reads e + j) - startTime < milliseconds 10) /\
  ((r.1 < length l)%nat ->
   milliseconds 10 <= steady_clock_now (clock_reads e + k) - startTime /\
   clock_reads r.2 = (clock_reads e + k + 1)%nat) /\
  ((length l <= r.1)%nat -> clock_reads r.2 = (clock_reads e + k)%nat).
Proof.
  revert idx e. induction n as [|n IH]; intros idx e Hn; simpl.
  - replace (idx - idx)%nat with 0%nat by lia.
    split; [lia|]. split; [lia|]. split; [lia|]. intros _. lia.
  - destruct (l !! idx) as [m|] eqn:Hm; simpl.
    + apply lookup_lt_Some in Hm as Hlt.
      destruct (Z.ltb_spec (steady_clock_now (clock_reads e) - startTime) (milliseconds 10))
        as [Hin|Hout].
      * specialize (IH (Datatypes.S idx) (age m (tick e))).
        destruct (age_loop n startTime l (Datatypes.S idx) (age m (tick e))) as [i e'].
        simpl in *. destruct IH as (Hle & Hwithin & Hshort & Hend); [lia|].
        replace (i - idx)%nat with (Datatypes.S (i - Datatypes.S idx)) by lia.
        split; [lia|]. split; [|split].
        -- intros [|j] Hj.
           ++ by rewrite Nat.add_0_r.
           ++ replace (clock_reads e + Datatypes.S j)%nat
                with (Datatypes.S (clock_reads e + j)) by lia.
              apply Hwithin. lia.
        -- intros Hi. destruct (Hshort Hi) as [Hpast Hreads].
           replace (clock_reads e + Datatypes.S (i - Datatypes.S idx))%nat
             with (Datatypes.S (clock_reads e + (i - Datatypes.S idx))) by lia.
           split; [done|]. lia.
        -- intros Hi. rewrite (Hend Hi). lia.
      * simpl. replace (idx - idx)%nat with 0%nat by lia. rewrite Nat.add_0_r.
        split; [lia|]. split; [lia|]. split; [|lia]. intros _. split; [done|lia].
    + apply lookup_ge_None in Hm. replace (idx - idx)%nat with 0%nat by lia.
      split; [lia|]. split; [lia|]. split; [lia|]. intros _. lia.
Qed.

(** One call, by the readings of the clock it takes. *)
Lemma allMapsAged_budget_spec wm e b wm' e' :
  (ageIndex wm <= length (maps wm))%nat ->
  allMapsAged wm e = (b, wm', e') ->
  exists n,
    (n <= length (maps wm) - ageIndex wm)%nat /\
    aged e' = aged e ++ take n (drop (ageIndex wm) (maps wm)) /\
    (forall j, (j < n)%nat ->
       steady_clock_now (clock_reads e + 1 + j) - steady_clock_now (clock_reads e)
       < milliseconds 10) /\
    (b = false ->
     (n < length (maps wm) - ageIndex wm)%nat /\
     milliseconds 10
       <= steady_clock_now (clock_reads e + 1 + n) - steady_clock_now (clock_reads e) /\
     clock_reads e' = (clock_reads e + n + 2)%nat /\
     wm' = set_ageIndex (ageIndex wm + n) wm) /\
    (b = true ->
     n = (length (maps wm) - ageIndex wm)%nat /\
     clock_reads e' = (clock_reads e + n + 1)%nat /\
     wm' = set_ageIndex 0%nat wm).
Proof.
  intros Hcur Hcall.
  pose proof Hcall as Hspec.
  apply allMapsAged_spec in Hspec as (idx & Hpass & Hidx & Haged & Hb); [|done].
  unfold age_pass in Hpass.
  pose proof (age_loop_budget (length (maps wm) - ageIndex wm)
                (steady_clock_now (clock_reads e)) (maps wm) (ageIndex wm) (tick e)
                (Nat.le_refl _)) as Hbudget.
  assert (He' : e' = (age_loop (length (maps wm) - ageIndex wm)
                        (steady_clock_now (clock_reads e)) (maps wm) (ageIndex wm)
                        (tick e)).2).
  { unfold allMapsAged, age_pass in Hcall.
    destruct (age_loop _ _ _ _ _) as [i e1]. simpl.
    by destruct (i <? length (maps wm))%nat; injection Hcall as _ _ <-. }
  destruct (age_loop _ _ _ _ _) as [i e1]. simpl in *. subst i e1.
  destruct Hbudget as (_ & Hwithin & Hshort & Hend).
  exists (idx - ageIndex wm)%nat. split; [lia|]. split; [done|]. split.
  { intros j Hj. replace (clock_reads e + 1 + j)%nat
      with (Datatypes.S (clock_reads e) + j)%nat by lia. by apply Hwithin. }
  split.
  - intros ->. destruct Hb as [(_ & Hlt & ->)|(? & _)]; [|done].
    destruct (Hshort Hlt) as [Hpast Hreads].
    split; [lia|]. split.
    + by replace (clock_reads e + 1 + (idx - ageIndex wm))%nat
        with (Datatypes.S (clock_reads e) + (idx - ageIndex wm))%nat by lia.
    + split; [lia|]. f_equal. lia.
  - intros ->. destruct Hb as [(? & _)|(_ & -> & ->)]; [done|].
    split; [done|]. split; [|done]. rewrite Hend by lia. lia.
Qed.

(** X5: the time box of one call, for a cursor within the vector. The call
    ages the maps from the cursor on, one for each reading of the clock that
    is less than 10 ms after the reading taken at the start; it returns
    false, with the cursor after the last map aged, when a reading is at
    10 ms or more while maps remain, and true, with the cursor at 0, when it
    has aged all that remained. No [age()] starts after a reading past the
    budget. *)
Theorem allMapsAged_time_box wm e b wm' e' :
  (ageIndex wm <= length (maps wm))%nat ->
  allMapsAged wm e = (b, wm', e') ->
  exists n,
    (n <= length (maps wm) - ageIndex wm)%nat /\
    aged e' = aged e ++ take n (drop (ageIndex wm) (maps wm)) /\
    (forall j, (j < n)%nat ->
       steady_clock_now (clock_reads e + 1 + j) - steady_clock_now (clock_reads e)
       < milliseconds 10) /\
    (b = false ->
     (n < length (maps wm) - ageIndex wm)%nat /\
     milliseconds 10
       <= steady_clock_now (clock_reads e + 1 + n) - steady_clock_now (clock_reads e) /\
     clock_reads e' = (clock_reads e + n + 2)%nat /\
     wm' = set_ageIndex (ageIndex wm + n) wm) /\
    (b = true ->
     n = (length (maps wm) - ageIndex wm)%nat /\
     clock_reads e' = (clock_reads e + n + 1)%nat /\
     wm' = set_ageIndex 0%nat wm).
Proof. apply allMapsAged_budget_spec. Qed.

(** X6: when every reading of the clock during the call is within the
    budget, one call ages all the maps from the cursor to the end, in order,
    and returns true with the cursor at 0. *)
Theorem allMapsAged_completes_within_budget wm e :
  (ageIndex wm <= length (maps wm))%nat ->
  (forall j, (j < length (maps wm) - ageIndex wm)%nat ->
     steady_clock_now (clock_reads e + 1 + j) - steady_clock_now (clock_reads e)
     < milliseconds 10) ->
  exists e',
    allMapsAged wm e = (true, set_ageIndex 0%nat wm, e') /\
    aged e' = aged e ++ drop (ageIndex wm) (maps wm) /\
    clock_reads e' = (clock_reads e + 1 + (length (maps wm) - ageIndex wm))%nat.
Proof.
  intros Hcur Hclock.
  destruct (allMapsAged wm e) as [[b wm'] e'] eqn:Hcall.
  apply allMapsAged_budget_spec in Hcall as (n & Hn & Haged & _ & Hfalse & Htrue); [|done].
  destruct b.
  - destruct (Htrue eq_refl) as (-> & Hreads & ->).
    exists e'. split; [done|]. split; [|lia].
    rewrite Haged. f_equal. apply take_ge. rewrite length_drop. lia.
  - destruct (Hfalse eq_refl) as (Hlt & Hpast & _). specialize (Hclock n Hlt). lia.
Qed.

(** X7: when the first reading after the start is already at 10 ms or
    more and maps remain, the call ages nothing, leaves the cursor where it
    was and returns false; it has read the clock twice. *)
Theorem allMapsAged_budget_spent_at_once wm e :
  (ageIndex wm < length (maps wm))%nat ->
  milliseconds 10
    <= steady_clock_now (clock_reads e + 1) - steady_clock_now (clock_reads e) ->
  allMapsAged wm e = (false, wm, tick (tick e)).
Proof.
  intros Hcur Hpast. unfold allMapsAged, age_pass.
  destruct (length (maps wm) - ageIndex wm)%nat as [|n] eqn:Hn; [lia|].
  simpl. destruct (lookup_lt_is_Some_2 (maps wm) (ageIndex wm) Hcur) as [m ->].
  replace (Datatypes.S (clock_reads e)) with (clock_reads e + 1)%nat by lia.
  destruct (Z.ltb_spec (steady_clock_now (clock_reads e + 1) - steady_clock_now (clock_reads e))
              (milliseconds 10)); [lia|].
  apply Nat.ltb_lt in Hcur. rewrite Hcur. by destruct wm.
Qed.

Lemma allMapsAged_past_end wm e :
  (length (maps wm) <= ageIndex wm)%nat ->
  allMapsAged wm e = (true, set_ageIndex 0%nat wm, tick e).
Proof.
  intros Hcur. unfold allMapsAged, age_pass.
  replace (length (maps wm) - ageIndex wm)%nat with 0%nat by lia. simpl.
  destruct (Nat.ltb_spec (ageIndex wm) (length (maps wm))); [lia|done].
Qed.

(** X8: a call with the cursor at or past the end of the vector (an empty
    registry, or a cursor left over by [clear]) ages nothing, reads the
    clock once, sets the cursor to 0 and returns true. *)
Theorem allMapsAged_cursor_at_end wm e :
  (length (maps wm) <= ageIndex wm)%nat ->
  allMapsAged wm e = (true, set_ageIndex 0%nat wm, tick e) /\
  aged (tick e) = aged e /\ clock_reads (tick e) = Datatypes.S (clock_reads e).
Proof. intros Hcur. split; [by apply allMapsAged_past_end|done]. Qed.

(** X9: [clear] keeps the cursor. After [clear] in the middle of a sweep
    and the registration of one map, the next call of [allMapsAged] returns
    true although it has not aged the map. *)
Theorem allMapsAged_after_clear wm fuel p wm1 e :
  (1 <= ageIndex wm)%nat ->
  InsertMap fuel (clear wm) (Some p) = Some (true, wm1) ->
  ageIndex (clear wm) = ageIndex wm /\
  maps wm1 = [p] /\
  allMapsAged wm1 e = (true, set_ageIndex 0%nat wm1, tick e) /\
  aged (tick e) = aged e.
Proof.
  intros Hcur Hrun. split; [done|].
  apply InsertMap_vector in Hrun as [Hidx [[? _]|(_ & q & [= <-] & _ & Hmaps)]]; [done|].
  simpl in Hmaps, Hidx. split; [done|]. split; [|done].
  apply allMapsAged_past_end. rewrite Hmaps, Hidx. simpl. lia.
Qed.

(** Registration between the calls of a sweep: the maps aged so far, after
    those before the cursor at the start, are the sweeps completed, each
    the vector as it was when its last call returned, and then the maps
    before the cursor. *)
Lemma run_calls_spec cs wm e bs wm' e' :
  (ageIndex wm <= length (maps wm))%nat ->
  run_calls cs wm e = Some (bs, wm', e') ->
  maps wm `prefix_of` maps wm' /\
  (ageIndex wm' <= length (maps wm'))%nat /\
  exists sweeps tr,
    aged e' = aged e ++ tr /\
    length sweeps = sweeps_done bs /\
    Forall (fun s => s `prefix_of` maps wm') sweeps /\
    take (ageIndex wm) (maps wm) ++ tr
    = mjoin sweeps ++ take (ageIndex wm') (maps wm').
Proof.
  revert wm e bs wm' e'. induction cs as [|c cs IH]; intros wm e bs wm' e' Hcur; simpl.
  - intros [= <- <- <-]. split; [done|]. split; [done|].
    exists [], []. rewrite !app_nil_r. done.
  - destruct c as [fuel newMap|].
    + destruct (InsertMap fuel wm newMap) as [[b wm1]|] eqn:Hins; [|discriminate].
      intros Hrun.
      apply InsertMap_vector in Hins as [Hidx Hvec].
      assert (Hpre : maps wm `prefix_of` maps wm1).
      { destruct Hvec as [[_ ->]|(_ & p & _ & _ & ->)]; [done|]. by apply prefix_app_r. }
      assert (Hcur1 : (ageIndex wm1 <= length (maps wm1))%nat).
      { rewrite Hidx. apply prefix_length in Hpre. lia. }
      apply IH in Hrun as (Hpre' & Hcur' & sweeps & tr & Htr & Hlen & Hall & Heq); [|done].
      split; [by etrans|]. split; [done|].
      exists sweeps, tr. split; [done|]. split; [done|]. split; [done|].
      rewrite <- Heq, Hidx. f_equal.
      destruct Hpre as [k ->]. by rewrite take_app_le.
    + destruct (allMapsAged wm e) as [[b wm1] e1] eqn:Hcall.
      destruct (run_calls cs wm1 e1) as [[[bs1 wm2] e2]|] eqn:Hrun; [|discriminate].
      intros [= <- <- <-].
      apply allMapsAged_spec in Hcall as (idx & _ & Hidx & Htr1 & Hb); [|done].
      assert (Hwm1 : maps wm1 = maps wm /\ (ageIndex wm1 <= length (maps wm1))%nat).
      { destruct Hb as [(_ & ? & ->)|(_ & _ & ->)]; simpl; split; (done || lia). }
      destruct Hwm1 as [Hm1 Hcur1].
      apply IH in Hrun as (Hpre' & Hcur' & sweeps & tr & Htr & Hlen & Hall & Heq); [|done].
      rewrite Hm1 in *. split; [done|]. split; [done|].
      destruct Hb as [(-> & Hlt & ->)|(-> & -> & ->)]; simpl in Heq.
      * exists sweeps, (take (idx - ageIndex wm) (drop (ageIndex wm) (maps wm)) ++ tr).
        split; [by rewrite Htr, Htr1, app_assoc|].
        split; [unfold sweeps_done in *; simpl;
                by destruct (Bool.bool_dec false true)|].
        split; [done|].
        rewrite app_assoc, take_slice by lia. done.
      * exists (maps wm :: sweeps),
          (take (length (maps wm) - ageIndex wm) (drop (ageIndex wm) (maps wm)) ++ tr).
        split; [by rewrite Htr, Htr1, app_assoc|].
        split; [unfold sweeps_done in *; simpl;
                destruct (Bool.bool_dec true true); [simpl; lia|done]|].
        split; [by constructor|].
        rewrite app_assoc, take_slice, firstn_all by lia.
        change (mjoin (maps wm :: sweeps)) with (maps wm ++ mjoin sweeps).
        by rewrite <- app_assoc, <- Heq.
Qed.

Lemma run_calls_NoDup cs wm e bs wm' e' :
  NoDup (maps wm) ->
  run_calls cs wm e = Some (bs, wm', e') ->
  NoDup (maps wm').
Proof.
  revert wm e bs wm' e'. induction cs as [|c cs IH]; intros wm e bs wm' e' Hnd; simpl.
  - by intros [= <- <- <-].
  - destruct c as [fuel newMap|].
    + destruct (InsertMap fuel wm newMap) as [[b wm1]|] eqn:Hins; [|discriminate].
      intros Hrun. eapply IH; [|exact Hrun].
      apply InsertMap_vector in Hins as [_ [[_ ->]|(_ & p & _ & Hnew & ->)]]; [done|].
      apply NoDup_app. split; [done|]. split; [|apply NoDup_singleton].
      intros q Hq ->%list_elem_of_singleton. done.
    + destruct (allMapsAged wm e) as [[b wm1] e1] eqn:Hcall.
      destruct (run_calls cs wm1 e1) as [[[bs1 wm2] e2]|] eqn:Hrun; [|discriminate].
      intros [= <- <- <-]. eapply IH; [|exact Hrun].
      destruct (allMapsAged_registry wm e) as [i Hi]. rewrite Hcall in Hi.
      simpl in Hi. by subst wm1.
Qed.

(** X10: maps may be registered between the calls of a sweep. Start with
    the cursor at 0 and run any calls of [InsertMap] and [allMapsAged] that
    return. The vector only grows and never repeats a map, and the maps
    aged are, in order: for each call of [allMapsAged] that returned true
    one completed pass, each such pass a beginning of the final vector
    without repetition (no map is aged twice in one pass), and then the
    maps before the cursor. *)
Theorem sweep_with_registration cs wm e bs wm' e' :
  ageIndex wm = 0%nat ->
  NoDup (maps wm) ->
  run_calls cs wm e = Some (bs, wm', e') ->
  maps wm `prefix_of` maps wm' /\
  NoDup (maps wm') /\
  (ageIndex wm' <= length (maps wm'))%nat /\
  exists sweeps,
    aged e' = aged e ++ mjoin sweeps ++ take (ageIndex wm') (maps wm') /\
    length sweeps = sweeps_done bs /\
    Forall (fun s => s `prefix_of` maps wm' /\ NoDup s) sweeps.
Proof.
  intros Hstart Hnd Hrun.
  pose proof (run_calls_NoDup _ _ _ _ _ _ Hnd Hrun) as Hnd'.
  apply run_calls_spec in Hrun
    as (Hpre & Hcur & sweeps & tr & Htr & Hlen & Hall & Heq); [|lia].
  rewrite Hstart in Heq. simpl in Heq. subst tr.
  split; [done|]. split; [done|]. split; [done|].
  exists sweeps. split; [done|]. split; [done|].
  eapply Forall_impl; [exact Hall|]. intros s [k Hs]. split; [by exists k|].
  rewrite Hs in Hnd'. by apply NoDup_app in Hnd' as [? _].
Qed.

(** ** Printed numbers *)

Lemma string_forallb_app f (a b : string) :
  string_forallb f (a +:+ b) = string_forallb f a && string_forallb f b.
Proof.
  induction a as [|c a IH]; [done|].
  change (String c a +:+ b) with (String c (a +:+ b)). simpl.
  by rewrite IH, andb_assoc.
Qed.

Lemma string_forallb_impl (f g : ascii -> bool) (s : string) :
  (forall c, f c = true -> g c = true) ->
  string_forallb f s = true -> string_forallb g s = true.
Proof.
  intros Hfg. induction s as [|c s IH]; [done|]. simpl.
  intros [Hc Hs]%andb_prop. rewrite (Hfg c Hc). by apply IH.
Qed.

Lemma string_of_uint_numeric d :
  string_forallb numeric (NilEmpty.string_of_uint d) = true.
Proof. induction d; simpl; done. Qed.

(** A printed number is made of digits and at most a sign, and is not
    empty. *)
Lemma to_string_numeric z :
  string_forallb numeric (to_string z) = true /\ to_string z <> EmptyString.
Proof.
  unfold to_string.
  assert (Huint : forall d, d <> Decimal.Nil ->
            string_forallb numeric (NilZero.string_of_uint d) = true /\
            NilZero.string_of_uint d <> EmptyString).
  { intros d Hd. destruct d; try done; (split; [apply (string_of_uint_numeric (_ d))|done]). }
  destruct z as [|p|p]; simpl.
  - done.
  - apply Huint, DecimalPos.Unsigned.to_uint_nonnil.
  - destruct (Huint _ (DecimalPos.Unsigned.to_uint_nonnil p)) as [-> _]. done.
Qed.

(** A printed number reads back as the number. *)
Lemma of_string_to_string z : of_string (to_string z) = Some z.
Proof.
  unfold of_string, to_string. rewrite NilZero.isi.
  - simpl. by rewrite DecimalZ.of_to.
  - destruct z as [|p|p]; simpl; try done.
    intros [= H]. by apply DecimalPos.Unsigned.to_uint_nonnil in H.
  - destruct z as [|p|p]; simpl; try done.
    intros [= H]. by apply DecimalPos.Unsigned.to_uint_nonnil in H.
Qed.

Lemma strip_spaces_spaces n (s : string) :
  strip_spaces (spaces n +:+ s) = strip_spaces s.
Proof. induction n as [|n IH]; [done|]. exact IH. Qed.

Lemma strip_spaces_numeric (s : string) :
  string_forallb numeric s = true -> strip_spaces s = s.
Proof.
  destruct s as [|c s]; [done|]. simpl. intros [Hc _]%andb_prop.
  destruct (Ascii.eqb_spec c " "%char) as [->|_]; done.
Qed.

(** A number printed with [%6d] reads back as the number. *)
Lemma read_padded_pad6 z : read_padded (pad6 z) = Some z.
Proof.
  unfold read_padded, pad6. rewrite strip_spaces_spaces.
  rewrite strip_spaces_numeric by apply to_string_numeric.
  apply of_string_to_string.
Qed.

Lemma to_string_inj z1 z2 : to_string z1 = to_string z2 -> z1 = z2.
Proof.
  intros H. apply (f_equal of_string) in H.
  rewrite !of_string_to_string in H. by injection H.
Qed.

Lemma pad6_inj z1 z2 : pad6 z1 = pad6 z2 -> z1 = z2.
Proof.
  intros H. apply (f_equal read_padded) in H.
  rewrite !read_padded_pad6 in H. by injection H.
Qed.

Lemma string_app_inv_head (a b c : string) : a +:+ b = a +:+ c -> b = c.
Proof.
  induction a as [|x a IH]; [done|].
  change (String x (a +:+ b) = String x (a +:+ c) -> b = c). intros [= H]. auto.
Qed.

(** Two texts without the character [sep], each followed by [sep], mark
    the same cut. *)
Lemma string_cut_unique sep (a b r1 r2 : string) :
  string_forallb (fun c => negb (Ascii.eqb c sep)) a = true ->
  string_forallb (fun c => negb (Ascii.eqb c sep)) b = true ->
  a +:+ String sep r1 = b +:+ String sep r2 ->
  a = b /\ r1 = r2.
Proof.
  revert b. induction a as [|x a IH]; intros [|y b] Ha Hb H; simpl in Ha, Hb, H.
  - by injection H as ->.
  - apply andb_prop in Hb as [Hy _]. injection H as <- _.
    by rewrite Ascii.eqb_refl in Hy.
  - apply andb_prop in Ha as [Hx _]. injection H as -> _.
    by rewrite Ascii.eqb_refl in Hx.
  - apply andb_prop in Ha as [_ Ha]. apply andb_prop in Hb as [_ Hb].
    injection H as -> H. destruct (IH b Ha Hb H) as [-> ->]. done.
Qed.

Lemma spaces_forallb f n : f " "%char = true -> string_forallb f (spaces n) = true.
Proof. intros Hf. induction n as [|n IH]; [done|]. simpl. by rewrite Hf. Qed.

Lemma numeric_not sep c :
  numeric sep = false -> numeric c = true -> negb (Ascii.eqb c sep) = true.
Proof.
  intros Hsep Hc. destruct (Ascii.eqb_spec c sep) as [->|_]; [congruence|done].
Qed.

Lemma to_string_free sep z :
  numeric sep = false ->
  string_forallb (fun c => negb (Ascii.eqb c sep)) (to_string z) = true.
Proof.
  intros Hsep. eapply string_forallb_impl; [|apply to_string_numeric].
  intros c. by apply numeric_not.
Qed.

Lemma pad6_free z :
  string_forallb (fun c => negb (Ascii.eqb c "_"%char)) (pad6 z) = true.
Proof.
  unfold pad6. rewrite string_forallb_app, spaces_forallb by done.
  by apply to_string_free.
Qed.

(** The name given to [Save] tells the level and the corner: two maps get
    the same name exactly when they agree on the three numbers. *)
Lemma mname_text_inj prefix m1 m2 :
  mname_text prefix m1 = mname_text prefix m2
  <-> Z_Level m1 = Z_Level m2 /\ Min_X m1 = Min_X m2 /\ Min_Y m1 = Min_Y m2.
Proof.
  unfold mname_text. split.
  - intros H. apply string_app_inv_head in H.
    change ("_" +:+ ?x) with (String "_"%char x) in H. injection H as H.
    apply string_cut_unique in H as [Hz H]; [|apply pad6_free..].
    apply string_cut_unique in H as [Hx Hy]; [|apply pad6_free..].
    auto using pad6_inj.
  - by intros (-> & -> & ->).
Qed.

(** ** More of the binary snapshot *)

(** A 16-bit number takes at most six characters, so [%6d] gives it
    exactly six. *)
Lemma pad6_length_16 z : in_signed 16 z -> String.length (pad6 z) = 6%nat.
Proof.
  intros Hz.
  assert (Hall : forallb (fun z => (String.length (to_string z) <=? 6)%nat)
                   (zrange (-32768) (Z.to_nat 65536)) = true)
    by (vm_compute; reflexivity).
  rewrite forallb_forall in Hall.
  assert (Hin : In z (zrange (-32768) (Z.to_nat 65536))).
  { apply list_elem_of_In, elem_of_zrange.
    unfold in_signed, smin, smax in Hz. simpl in Hz. lia. }
  apply Hall, Nat.leb_le in Hin.
  destruct (pad6_spec z) as [-> _]. lia.
Qed.

Lemma save_maps_None prefix l log :
  save_maps prefix l log = None ->
  exists p, p ∈ l /\ (200 <= String.length (mname_text prefix (heap p)))%nat.
Proof.
  revert log. induction l as [|p l IH]; intros log; simpl; [discriminate|].
  unfold sprintf_mname.
  destruct (Nat.ltb_spec (String.length (mname_text prefix (heap p))) 200) as [_|Hge].
  - intros Hrun. apply IH in Hrun as (q & Hq & Hlong). exists q. split; [by right|done].
  - intros _. exists p. split; [by left|done].
Qed.

(** X11: what the index file holds for any number of maps. The count
    field is the number of registered maps modulo 65536; the records and
    the calls of [Save] are always as many as the maps, so the count tells
    the number of records that follow exactly when fewer than 65536 maps are
    registered. *)
Theorem saveToDisk_count_modulo prefix wm name log :
  saveToDisk true prefix wm = Saved name log ->
  mapinitfile log
  = Obj 2 (Z.of_nat (length (maps wm)) mod 65536)
      :: flat_map (fun p => save_record (heap p)) (maps wm) /\
  length (mapinitfile log) = (1 + 5 * length (maps wm))%nat /\
  length (Save_calls log) = length (maps wm) /\
  List.map fst (Save_calls log) = maps wm /\
  file_size (mapinitfile log)
  = 2 + Z.of_nat (length (maps wm)) * (3 * Z.pos coord_bytes + 4) /\
  (Z.of_nat (length (maps wm)) mod 65536 = Z.of_nat (length (maps wm))
   <-> Z.of_nat (length (maps wm)) < 65536).
Proof.
  intros Hrun. apply saveToDisk_Saved in Hrun as (_ & Hfile & Hcalls & _).
  split; [exact Hfile|]. rewrite Hfile, Hcalls. split; [|split; [|split; [|split]]].
  - simpl. by rewrite flat_map_records_length.
  - by rewrite length_map.
  - rewrite List.map_map. simpl. apply List.map_id.
  - cbn [file_size fold_right chunk_size].
    fold (file_size (flat_map (fun p => save_record (heap p)) (maps wm))).
    rewrite flat_map_records_size. lia.
  - split.
    + intros H. pose proof (Z.mod_pos_bound (Z.of_nat (length (maps wm))) 65536). lia.
    + intros H. apply Z.mod_small. lia.
Qed.

(** X12: the buffer of the name. [saveToDisk] writes past [mname] exactly
    when the index file opened and the name of some registered map has 200
    characters or more; with levels and corners of 16 bits a name has 21
    characters more than the prefix, so this is so exactly when a map is
    registered and the prefix has 179 characters or more. When the index
    file did not open nothing is written and no map is saved. *)
Theorem saveToDisk_buffer_overrun prefix wm :
  (saveToDisk true prefix wm = BufferOverrun
   <-> exists p, p ∈ maps wm /\ (200 <= String.length (mname_text prefix (heap p)))%nat) /\
  (forall m,
     in_signed 16 (Z_Level m) -> in_signed 16 (Min_X m) -> in_signed 16 (Min_Y m) ->
     String.length (mname_text prefix m) = (String.length (c_str prefix) + 21)%nat) /\
  saveToDisk false prefix wm = NotCreated.
Proof.
  split; [|split; [|done]].
  - unfold saveToDisk. split.
    + destruct (save_maps _ _ _) as [log|] eqn:Hrun; [discriminate|].
      intros _. by apply save_maps_None in Hrun.
    + intros (p & Hp & Hlong).
      destruct (save_maps _ _ _) as [log|] eqn:Hrun; [|done].
      apply save_maps_spec in Hrun as (_ & _ & Hfit). specialize (Hfit p Hp). lia.
  - intros m Hz Hx Hy. unfold mname_text.
    rewrite !string_length_app, !pad6_length_16 by done. simpl. lia.
Qed.

(** X13: the names given to [Save]. Two calls of [Save] made by one
    [saveToDisk] get the same name exactly when their maps have the same
    level and the same least x and y; each name is the prefix and the three
    numbers, each padded to six characters and led by an underscore, and
    each padded number reads back as the number. *)
Theorem saveToDisk_names_tell_maps prefix wm name log :
  saveToDisk true prefix wm = Saved name log ->
  (forall i j p q n1 n2,
     Save_calls log !! i = Some (p, n1) ->
     Save_calls log !! j = Some (q, n2) ->
     (n1 = n2 <-> Z_Level (heap p) = Z_Level (heap q) /\
                  Min_X (heap p) = Min_X (heap q) /\
                  Min_Y (heap p) = Min_Y (heap q))) /\
  (forall i p n,
     Save_calls log !! i = Some (p, n) ->
     n = c_str prefix +:+ "_" +:+ pad6 (Z_Level (heap p)) +:+ "_"
           +:+ pad6 (Min_X (heap p)) +:+ "_" +:+ pad6 (Min_Y (heap p)) /\
     read_padded (pad6 (Z_Level (heap p))) = Some (Z_Level (heap p)) /\
     read_padded (pad6 (Min_X (heap p))) = Some (Min_X (heap p)) /\
     read_padded (pad6 (Min_Y (heap p))) = Some (Min_Y (heap p))).
Proof.
  intros Hrun. apply saveToDisk_Saved in Hrun as (_ & _ & Hcalls & _).
  assert (Hname : forall i p n, Save_calls log !! i = Some (p, n) ->
                                n = mname_text prefix (heap p)).
  { intros i p n Hi. rewrite Hcalls, list_lookup_fmap in Hi.
    destruct (maps wm !! i); simpl in Hi; [|done]. by injection Hi as <- <-. }
  split.
  - intros i j p q n1 n2 Hi Hj.
    rewrite (Hname _ _ _ Hi), (Hname _ _ _ Hj). apply mname_text_inj.
  - intros i p n Hi. split; [by apply (Hname i)|].
    by rewrite !read_padded_pad6.
Qed.

(** ** More of the text export *)

(** A loop from a value of the counter's type that returns has run its
    body on [lo .. hi], in order, whatever the upper bound. *)
Lemma for_le_returns_any {S : Type} bits (body : Z -> S -> option S) fuel lo hi s s' :
  in_signed bits lo ->
  for_le bits fuel lo hi body s = Some s' ->
  fold_opt body (zrange lo (Z.to_nat (hi - lo + 1))) s = Some s'.
Proof.
  intros Hlo Hrun.
  destruct (Z.lt_ge_cases hi lo) as [Hempty|Hle].
  - rewrite zrange_empty by done.
    destruct fuel; simpl in Hrun; destruct (Z.leb_spec lo hi); (lia || done).
  - destruct (Z.lt_ge_cases hi (smax bits)) as [Hlt|Hge].
    + by eapply for_le_sound.
    + by rewrite for_le_diverges in Hrun.
Qed.

Lemma in_signed_16_wrap v : in_signed 16 (wrap 16 v).
Proof.
  apply (wrap_range 16 v 0). unfold in_signed, smin, smax. simpl. lia.
Qed.

Lemma export_item_app dx dy (out : string) it :
  export_item dx dy out it = out +:+ export_item dx dy EmptyString it.
Proof.
  unfold export_item. rewrite !fold_left_export_data.
  by rewrite string_app_nil_l, !string_app_assoc.
Qed.

Lemma fold_left_export_item dx dy items (out : string) :
  fold_left (export_item dx dy) items out
  = out +:+ fold_left (export_item dx dy) items EmptyString.
Proof.
  revert out. induction items as [|it items IH]; intros out; simpl fold_left.
  - by rewrite string_app_nil_r.
  - rewrite IH, (IH (export_item dx dy EmptyString it)), export_item_app.
    by rewrite string_app_assoc.
Qed.

(** The body of the inner loop adds the text of the cell to each stream. *)
Lemma export_cell_step m y x st :
  export_cell m (export_minX m) (export_minY m) y x st = Some (cell_step m st (x, y)).
Proof.
  unfold export_cell, cell_step, tiles_line, warps_line, items_lines. simpl.
  destruct (GetCFieldAt m x y) as [field|].
  - f_equal. f_equal.
    + apply fold_left_export_item.
    + destruct (GetWarpField field); [done|]. by rewrite string_app_nil_r.
  - destruct st. simpl. by rewrite !string_app_nil_r.
Qed.

Lemma fold_opt_export_cell m y xs st :
  fold_opt (export_cell m (export_minX m) (export_minY m) y) xs st
  = Some (fold_left (cell_step m) (List.map (fun x => (x, y)) xs) st).
Proof.
  revert st. induction xs as [|x xs IH]; intros st; simpl; [done|].
  by rewrite export_cell_step, IH.
Qed.

Lemma fold_opt_export_row fuel m ys st st' :
  fold_opt (export_row fuel m (export_minX m) (export_minY m)) ys st = Some st' ->
  st' = fold_left (cell_step m)
          (flat_map (fun y => List.map (fun x => (x, y))
                      (zrange (export_minX m) (Z.to_nat (GetMaxX m - export_minX m + 1))))
                    ys) st.
Proof.
  revert st. induction ys as [|y ys IH]; intros st; simpl.
  - by intros [= <-].
  - destruct (export_row fuel m (export_minX m) (export_minY m) y st) as [st1|] eqn:Hrow;
      [|discriminate].
    unfold export_row in Hrow.
    apply for_le_returns_any in Hrow; [|apply in_signed_16_wrap].
    rewrite fold_opt_export_cell in Hrow. injection Hrow as <-.
    intros Hrun. rewrite (IH _ Hrun). by rewrite fold_left_app.
Qed.

Lemma fold_left_cell_step m cells st :
  fold_left (cell_step m) cells st
  = {| fieldsf := fieldsf st +:+ string_concat (List.map (tiles_line m) cells);
       itemsf := itemsf st +:+ string_concat (List.map (items_lines m) cells);
       warpsf := warpsf st +:+ string_concat (List.map (warps_line m) cells) |}.
Proof.
  revert st. induction cells as [|c cells IH]; intros st; simpl.
  - destruct st. simpl. by rewrite !string_app_nil_r.
  - rewrite IH. unfold cell_step. simpl. by rewrite !string_app_assoc.
Qed.

(** The loops of [exportTo] over one map, when they return. *)
Lemma export_rows_text fuel m st st' :
  export_rows fuel m (export_minX m) (export_minY m) st = Some st' ->
  st' = {| fieldsf := fieldsf st +:+ string_concat (List.map (tiles_line m) (export_cells m));
           itemsf := itemsf st +:+ string_concat (List.map (items_lines m) (export_cells m));
           warpsf := warpsf st +:+ string_concat (List.map (warps_line m) (export_cells m)) |}.
Proof.
  unfold export_rows. intros Hrun.
  apply for_le_returns_any in Hrun; [|apply in_signed_16_wrap].
  apply fold_opt_export_row in Hrun. rewrite Hrun. apply fold_left_cell_step.
Qed.

Lemma elem_of_export_cells m x y :
  (x, y) ∈ export_cells m
  <-> export_minX m <= x <= GetMaxX m /\ export_minY m <= y <= GetMaxY m.
Proof.
  unfold export_cells. rewrite list_elem_of_In, in_flat_map. split.
  - intros (y' & Hy' & Hx). apply in_map_iff in Hx as (x' & [= -> ->] & Hx').
    apply list_elem_of_In, elem_of_zrange in Hy', Hx'. lia.
  - intros [Hx Hy]. exists y. split.
    + apply list_elem_of_In, elem_of_zrange. lia.
    + apply in_map_iff. exists x. split; [done|].
      apply list_elem_of_In, elem_of_zrange. lia.
Qed.

(** X14: what the loops of [exportTo] write for one map, when they
    return. They visit the cells with [minX <= x <= GetMaxX] and
    [minY <= y <= GetMaxY], row after row and each row from left to right,
    and add to the three streams, for each cell with content, one tiles
    line, one warps line when the field is a warp, and one items line for
    each exportable item, with the coordinates taken from the least corner;
    a cell without content adds nothing. *)
Theorem export_rows_row_major fuel m st st' :
  export_rows fuel m (export_minX m) (export_minY m) st = Some st' ->
  fieldsf st' = fieldsf st +:+ string_concat (List.map (tiles_line m) (export_cells m)) /\
  itemsf st' = itemsf st +:+ string_concat (List.map (items_lines m) (export_cells m)) /\
  warpsf st' = warpsf st +:+ string_concat (List.map (warps_line m) (export_cells m)) /\
  (forall x y, (x, y) ∈ export_cells m
               <-> export_minX m <= x <= GetMaxX m /\ export_minY m <= y <= GetMaxY m) /\
  (forall c, GetCFieldAt m c.1 c.2 = None ->
             tiles_line m c = EmptyString /\ items_lines m c = EmptyString /\
             warps_line m c = EmptyString).
Proof.
  intros Hrun. apply export_rows_text in Hrun. subst st'. simpl.
  split; [done|]. split; [done|]. split; [done|].
  split; [apply elem_of_export_cells|].
  intros c Hc. unfold tiles_line, items_lines, warps_line. by rewrite Hc.
Qed.

(** *** File names *)

Lemma c_str_free (s : string) :
  c_str s = s <-> string_forallb (fun c => negb (Ascii.eqb c zero)) s = true.
Proof.
  induction s as [|c s IH]; simpl; [done|].
  destruct (Ascii.eqb c zero) eqn:Hc; simpl.
  - split; [discriminate|done].
  - rewrite <- IH. split; [by intros [= ->]|by intros ->].
Qed.

Lemma to_string_no_nul z :
  string_forallb (fun c => negb (Ascii.eqb c zero)) (to_string z) = true.
Proof. by apply to_string_free. Qed.

(** A base name made from a directory without NUL has none. *)
Lemma filebase_no_nul exportDir m minX minY :
  c_str exportDir = exportDir ->
  string_forallb (fun c => negb (Ascii.eqb c zero)) (filebase exportDir m minX minY) = true.
Proof.
  intros Hdir%c_str_free. unfold filebase.
  rewrite !string_forallb_app, Hdir, !to_string_no_nul. done.
Qed.

Lemma path_no_nul exportDir p (suffix : string) :
  c_str exportDir = exportDir ->
  string_forallb (fun c => negb (Ascii.eqb c zero)) suffix = true ->
  c_str (map_base exportDir p +:+ suffix) = map_base exportDir p +:+ suffix.
Proof.
  intros Hdir Hs. apply c_str_free. rewrite string_forallb_app, Hs.
  unfold map_base. by rewrite filebase_no_nul.
Qed.

Lemma string_app_inv_tail (a b s t : string) :
  String.length s = String.length t -> a +:+ s = b +:+ t -> a = b /\ s = t.
Proof.
  intros Hlen. revert b. induction a as [|x a IH]; intros [|y b] H.
  - done.
  - apply (f_equal String.length) in H.
    rewrite !string_length_app in H. simpl in H. lia.
  - apply (f_equal String.length) in H.
    rewrite !string_length_app in H. simpl in H. lia.
  - simpl in H. injection H as -> H. by destruct (IH b H) as [-> ->].
Qed.

(** With a directory without NUL, a file of one map is a file of another
    only when the two maps have the same base name; the three files of a
    map are three. *)
Lemma map_paths_share exportDir p q path :
  c_str exportDir = exportDir ->
  path ∈ map_paths exportDir p -> path ∈ map_paths exportDir q ->
  map_base exportDir p = map_base exportDir q.
Proof.
  intros Hdir Hp Hq. unfold map_paths, tiles_path, items_path, warps_path in *.
  rewrite !path_no_nul in Hp, Hq by done.
  rewrite !elem_of_cons, elem_of_nil in Hp, Hq.
  destruct Hp as [->|[->|[->|[]]]]; destruct Hq as [Hq|[Hq|[Hq|[]]]];
    by apply string_app_inv_tail in Hq as [? ?].
Qed.

Lemma map_paths_distinct exportDir p :
  c_str exportDir = exportDir -> NoDup (map_paths exportDir p).
Proof.
  intros Hdir. unfold map_paths, tiles_path, items_path, warps_path.
  rewrite !path_no_nul by done.
  repeat (apply NoDup_cons; split;
          [rewrite ?elem_of_cons, elem_of_nil;
           intros H; repeat (destruct H as [H|H]; [by apply string_app_inv_head in H|]);
           done|]).
  apply NoDup_nil. exact I.
Qed.

(** The base name tells the level and the least corner as [exportTo]
    reads it. *)
Lemma map_base_inj exportDir p q :
  map_base exportDir p = map_base exportDir q
  <-> export_minX (heap p) = export_minX (heap q) /\
      export_minY (heap p) = export_minY (heap q) /\
      Z_Level (heap p) = Z_Level (heap q).
Proof.
  unfold map_base, filebase. split.
  - intros H. apply string_app_inv_head in H.
    change ("e_" +:+ ?x) with (String "e"%char (String "_"%char x)) in H.
    injection H as H.
    change ("_" +:+ ?x) with (String "_"%char x) in H.
    apply string_cut_unique in H as [Hx H]; [|by apply to_string_free..].
    apply string_cut_unique in H as [Hy H]; [|by apply to_string_free..].
    change (to_string ?z +:+ ".") with (to_string z +:+ String "."%char EmptyString) in H.
    apply string_cut_unique in H as [Hz _]; [|by apply to_string_free..].
    auto using to_string_inj.
  - by intros (-> & -> & ->).
Qed.

(** *** The files on disk *)

(** Exporting [l1] and then [l2]: the second part goes on from the disk
    the first part left, unless a stream of the first part did not open. *)
Lemma exportTo_from_app fuel exportDir l1 l2 d :
  exportTo_from fuel exportDir (l1 ++ l2) d
  = match exportTo_from fuel exportDir l1 d with
    | Some (true, d1) => exportTo_from fuel exportDir l2 d1
    | r => r
    end.
Proof.
  revert d. induction l1 as [|p l1 IH]; intros d; simpl; [done|].
  destruct (open_streams _ d) as [[] d1]; [|done].
  destruct (export_rows _ _ _ _ _) as [st|]; [|done]. apply IH.
Qed.

Lemma close_streams_files base st d :
  (forall path, is_Some (files d !! path) -> is_Some (files (close_streams base st d) !! path)) /\
  (forall path, path ∉ [tiles_path base; items_path base; warps_path base] ->
                files (close_streams base st d) !! path = files d !! path) /\
  (forall path, path ∈ [tiles_path base; items_path base; warps_path base] ->
                is_Some (files (close_streams base st d) !! path)).
Proof.
  unfold close_streams. simpl. split; [|split]; intros path;
    rewrite ?lookup_insert; repeat case_decide;
    rewrite ?not_elem_of_cons, ?elem_of_cons, ?elem_of_nil;
    try (intros (? & ? & ? & _)); try (intros [?|[?|[?|[]]]]); eauto; congruence.
Qed.

(** A call that returns has removed no file, has left every file that is
    not one of the three of a map of [l] as it was, and, when it returns
    true, has left the three files of every map of [l]. *)
Lemma exportTo_from_files fuel exportDir l d b d' :
  exportTo_from fuel exportDir l d = Some (b, d') ->
  (forall path, is_Some (files d !! path) -> is_Some (files d' !! path)) /\
  (forall path, (forall q, q ∈ l -> path ∉ map_paths exportDir q) ->
                files d' !! path = files d !! path) /\
  (b = true -> forall q path, q ∈ l -> path ∈ map_paths exportDir q ->
                              is_Some (files d' !! path)).
Proof.
  revert d. induction l as [|p l IH]; intros d; simpl.
  - intros [= <- <-]. split; [done|]. split; [done|].
    intros _ q path Hq. by apply elem_of_nil in Hq.
  - fold (map_base exportDir p).
    destruct (open_streams_spec (map_base exportDir p) d) as (d1 & -> & _ & Hdom1 & Hother1).
    destruct (streams_good (opened d) (map_base exportDir p)).
    + destruct (export_rows _ _ _ _ _) as [st|]; [|discriminate].
      intros Hrun. apply IH in Hrun as (Hdom & Hother & Hall).
      destruct (close_streams_files (map_base exportDir p) st d1)
        as (Hdomc & Hotherc & Hinc).
      split; [auto|]. split.
      * intros path Hpath. rewrite Hother by (intros q Hq; apply Hpath; by right).
        assert (Hp : path ∉ map_paths exportDir p) by (apply Hpath; by left).
        rewrite Hotherc by exact Hp. by apply Hother1.
      * intros Hb q path [->|Hq]%elem_of_cons Hpath.
        -- apply Hdom, Hinc. exact Hpath.
        -- by eapply Hall.
    + intros [= <- <-]. split; [done|]. split.
      * intros path Hpath. apply Hother1. apply Hpath. by left.
      * done.
Qed.

(** X15: the files [exportTo] touches. A call that returns has removed no
    file and has left every file that is not one of the three files of a
    registered map exactly as it was; when it returns true the three files
    of every registered map exist. *)
Theorem exportTo_touches_map_files fuel exportDir wm d b d' :
  exportTo fuel exportDir wm d = Some (b, d') ->
  (forall path, is_Some (files d !! path) -> is_Some (files d' !! path)) /\
  (forall path, (forall q, q ∈ maps wm -> path ∉ map_paths exportDir q) ->
                files d' !! path = files d !! path) /\
  (b = true -> forall q path, q ∈ maps wm -> path ∈ map_paths exportDir q ->
                              is_Some (files d' !! path)).
Proof. apply exportTo_from_files. Qed.

(** X16: what is on disk after an export that returned true, for a
    directory name without NUL. The three files of a registered map hold
    the header and the lines of that map, cell by cell in the order of the
    loops, unless a map registered later has the same base name (the same
    least corner and level): the files then hold the text of the last such
    map. *)
Theorem exportTo_writes_map_text fuel exportDir wm l1 p l2 d d' :
  c_str exportDir = exportDir ->
  maps wm = l1 ++ p :: l2 ->
  (forall q, q ∈ l2 -> map_base exportDir q <> map_base exportDir p) ->
  exportTo fuel exportDir wm d = Some (true, d') ->
  files d' !! tiles_path (map_base exportDir p)
  = Some (tiles_header (heap p) (export_minX (heap p)) (export_minY (heap p))
          +:+ string_concat (List.map (tiles_line (heap p)) (export_cells (heap p)))) /\
  files d' !! items_path (map_base exportDir p)
  = Some (string_concat (List.map (items_lines (heap p)) (export_cells (heap p)))) /\
  files d' !! warps_path (map_base exportDir p)
  = Some (string_concat (List.map (warps_line (heap p)) (export_cells (heap p)))).
Proof.
  intros Hdir Hmaps Hlater. unfold exportTo. rewrite Hmaps, exportTo_from_app.
  destruct (exportTo_from fuel exportDir l1 d) as [[[] d1]|]; [|discriminate..].
  simpl. fold (map_base exportDir p).
  destruct (open_streams _ d1) as [[] d2]; [|discriminate].
  destruct (export_rows _ _ _ _ _) as [st|] eqn:Hrows; [|discriminate].
  apply export_rows_text in Hrows. simpl in Hrows.
  intros Hrun. apply exportTo_from_files in Hrun as (_ & Hother & _).
  pose proof (map_paths_distinct exportDir p Hdir) as Hnd.
  unfold map_paths in Hnd.
  apply NoDup_cons in Hnd as [Ht Hnd]. apply NoDup_cons in Hnd as [Hi _].
  apply not_elem_of_cons in Ht as [Hti Ht]. apply not_elem_of_cons in Ht as [Htw _].
  apply not_elem_of_cons in Hi as [Hiw _].
  assert (Hmine : forall path, path ∈ map_paths exportDir p ->
                    forall q, q ∈ l2 -> path ∉ map_paths exportDir q).
  { intros path Hpath q Hq Hpq. apply (Hlater q Hq). symmetry.
    by eapply map_paths_share. }
  rewrite !Hother by (apply Hmine; unfold map_paths; rewrite !elem_of_cons; auto).
  unfold close_streams. simpl. subst st. simpl.
  rewrite !string_app_nil_l.
  split; [|split].
  - by rewrite lookup_insert_ne, lookup_insert_ne, lookup_insert_eq by done.
  - by rewrite lookup_insert_ne, lookup_insert_eq by done.
  - by rewrite lookup_insert_eq.
Qed.

(** X17: two registered maps are exported to the same three files exactly
    when they have the same level and the same least corner as [exportTo]
    reads it (for a directory name without NUL); otherwise they share no
    file. *)
Theorem exportTo_files_shared exportDir p q :
  c_str exportDir = exportDir ->
  (map_paths exportDir p = map_paths exportDir q
   <-> export_minX (heap p) = export_minX (heap q) /\
       export_minY (heap p) = export_minY (heap q) /\
       Z_Level (heap p) = Z_Level (heap q)) /\
  (map_paths exportDir p <> map_paths exportDir q ->
   forall path, path ∈ map_paths exportDir p -> path ∉ map_paths exportDir q) /\
  NoDup (map_paths exportDir p).
Proof.
  intros Hdir. split; [|split].
  - rewrite <- map_base_inj. split.
    + intros H. apply (map_paths_share exportDir p q (tiles_path (map_base exportDir p)) Hdir).
      * unfold map_paths. by left.
      * rewrite <- H. unfold map_paths. by left.
    + intros H. unfold map_paths. by rewrite H.
  - intros Hne path Hp Hq. apply Hne. unfold map_paths.
    by rewrite (map_paths_share exportDir p q path Hdir Hp Hq).
  - by apply map_paths_distinct.
Qed.

(** X18: a registered map whose rectangle is not empty and reaches 32767,
    the largest value of the [short] counters of [exportTo]: once the maps
    before it are exported and its streams are open, the condition of the
    loop never fails and [exportTo] does not return, whatever the fuel. *)
Theorem exportTo_never_returns fuel exportDir wm l1 p l2 d d1 :
  maps wm = l1 ++ p :: l2 ->
  exportTo_from fuel exportDir l1 d = Some (true, d1) ->
  streams_good (opened d1) (map_base exportDir p) = true ->
  export_minY (heap p) <= GetMaxY (heap p) ->
  32767 <= GetMaxY (heap p) \/
    (export_minX (heap p) <= GetMaxX (heap p) /\ 32767 <= GetMaxX (heap p)) ->
  exportTo fuel exportDir wm d = None.
Proof.
  intros Hmaps Hl1 Hgood Hy Htop. unfold exportTo.
  rewrite Hmaps, exportTo_from_app, Hl1. simpl. fold (map_base exportDir p).
  destruct (open_streams_spec (map_base exportDir p) d1) as (d2 & -> & _).
  rewrite Hgood.
  assert (Hrows : forall st, export_rows fuel (heap p) (export_minX (heap p))
                               (export_minY (heap p)) st = None); [|by rewrite Hrows].
  intros st. unfold export_rows. destruct Htop as [Hmax|[Hx Hmax]].
  - apply for_le_diverges; [apply in_signed_16_wrap|done|done].
  - destruct fuel as [|fuel]; simpl.
    + by destruct (Z.leb_spec (export_minY (heap p)) (GetMaxY (heap p))); [|lia].
    + destruct (Z.leb_spec (export_minY (heap p)) (GetMaxY (heap p))); [|lia].
      unfold export_row at 1.
      rewrite for_le_diverges; [done|apply in_signed_16_wrap|done|done].
Qed.

End Registry.

(** * The properties on the sample worlds *)

Lemma sample_heap_wf : wf_heap 2 sample_heap.
Proof.
  intros p. unfold wf_Map, in_signed, smin, smax, coord_bits, sample_heap.
  destruct p as [[| |]|[| |]|]; simpl; lia.
Defined.

Lemma registry_A_inserted :
  InsertMap 2 sample_heap 3 empty_WorldMap (Some 1%positive) = Some (true, registry_A).
Proof. vm_compute. reflexivity. Defined.

Lemma registry_A_reachable : reachable 2 sample_heap sample_clock registry_A.
Proof.
  apply (reach_InsertMap 2 sample_heap sample_clock empty_WorldMap 3
           (Some 1%positive) true registry_A).
  - apply reach_empty.
  - exact registry_A_inserted.
Defined.

(** The invariant on the registry that holds map A alone. *)
Lemma index_invariant_witness :
  wf_heap 2 sample_heap /\
  reachable 2 sample_heap sample_clock registry_A /\
  index_inv sample_heap registry_A /\
  index_inv sample_heap (clear registry_A).
Proof.
  split; [exact sample_heap_wf|]. split; [exact registry_A_reachable|].
  destruct (index_invariant 2 sample_heap sample_clock registry_A
              sample_heap_wf registry_A_reachable) as (Hinv & _ & _ & _ & _ & Hclear).
  split; [exact Hinv|exact Hclear].
Defined.

(** Map A a second time. *)
Lemma InsertMap_duplicate_witness :
  1%positive ∈ maps registry_A /\
  InsertMap 2 sample_heap 3 registry_A (Some 1%positive) = Some (false, registry_A).
Proof.
  assert (Hin : 1%positive ∈ maps registry_A) by (simpl; constructor).
  split; [exact Hin|].
  destruct (InsertMap_duplicate 2 sample_heap 3 registry_A 1%positive Hin)
    as (wm' & Hrun & _ & _ & _ & Heq).
  subst wm'. exact Hrun.
Defined.

(** Map A alone: a cell inside, and the cell left of its lower corner. *)
Lemma findMapForPos_single_witness :
  wf_Map 2 (sample_heap 1%positive) /\
  InsertMap 2 sample_heap 3 empty_WorldMap (Some 1%positive) = Some (true, registry_A) /\
  findMapForPos registry_A (mk_position 12 21 0) = Some 1%positive /\
  findMapForPos registry_A (mk_position 9 20 0) = None.
Proof.
  pose proof (sample_heap_wf 1%positive) as Hwf.
  destruct (findMapForPos_single 2 sample_heap empty_WorldMap 1%positive Hwf eq_refl eq_refl)
    as [Hret _].
  destruct (Hret 3%nat true registry_A registry_A_inserted) as (_ & Hin & _ & Hout).
  split; [exact Hwf|]. split; [exact registry_A_inserted|]. split.
  - apply (Hin 12 21); simpl; lia.
  - exact Hout.
Defined.

(** The rectangle from (11, 20) of width 3 and height 2 on level 0, and
    the same rectangle as margins around (12, 21). *)
Lemma mapInRangeOf_findAllMapsInRangeOf_witness :
  pos_z (mk_position 12 21 0) = pos_z (mk_position 11 20 0) /\
  MAP_POSITION_of 2 (12 - 1) (21 - 1) = to_MAP_POSITION (mk_position 11 20 0) /\
  MAP_POSITION_of 2 (12 + 1) (21 + 0) = MAP_POSITION_of 2 (11 + 3 - 1) (20 + 2 - 1) /\
  (mapInRangeOf 2 sample_heap registry_ABC (mk_position 11 20 0) 3 2 = true
   <-> findAllMapsInRangeOf 2 sample_heap registry_ABC 1 0 1 1 (mk_position 12 21 0) <> []).
Proof.
  split; [reflexivity|]. split; [reflexivity|]. split; [reflexivity|].
  apply (mapInRangeOf_findAllMapsInRangeOf 2 sample_heap registry_ABC
           (mk_position 11 20 0) 3 2 1 0 1 1 (mk_position 12 21 0));
    reflexivity.
Defined.

Lemma registry_ABC_NoDup : NoDup (maps registry_ABC).
Proof.
  simpl. repeat (apply NoDup_cons; split; [rewrite ?elem_of_cons, elem_of_nil; lia|]).
  apply NoDup_nil. exact I.
Defined.

(** Three maps and two calls: the first stops before the third map, the
    second ages it and returns true. *)
Lemma allMapsAged_sweep_witness :
  ageIndex registry_ABC = 0%nat /\
  NoDup (maps registry_ABC) /\
  sweep_calls sample_clock 2 registry_ABC (mk_AgeEnv 0 [])
    = ([false; true], registry_ABC, mk_AgeEnv 6 [1; 2; 3]%positive) /\
  (forall p, p ∈ maps registry_ABC ->
             count_occ Pos.eq_dec [1; 2; 3]%positive p = 1%nat).
Proof.
  assert (Hrun : sweep_calls sample_clock 2 registry_ABC (mk_AgeEnv 0 [])
                 = ([false; true], registry_ABC, mk_AgeEnv 6 [1; 2; 3]%positive))
    by (vm_compute; reflexivity).
  split; [reflexivity|]. split; [exact registry_ABC_NoDup|]. split; [exact Hrun|].
  destruct (allMapsAged_sweep sample_clock registry_ABC (mk_AgeEnv 0 []) 2
              [false; true] registry_ABC (mk_AgeEnv 6 [1; 2; 3]%positive)
              eq_refl registry_ABC_NoDup Hrun) as (_ & (tr & Htr & _ & Hlast) & _).
  destruct (Hlast eq_refl) as [_ Hcount].
  simpl in Htr. subst tr. exact Hcount.
Defined.

(** Three maps, and the items file of the second does not open: the call
    returns false, the files of map A are written, no file of the third
    map exists. *)
Lemma exportTo_open_failure_witness :
  (forall p, p ∈ maps registry_ABC ->
             loops_end 16 (sample_heap p) /\ (export_fuel (sample_heap p) <= 5)%nat) /\
  exists d',
    exportTo sample_heap sample_open_ok 5 "out/" registry_ABC (mk_Disk ∅ 0)
      = Some (false, d') /\
    all_open sample_heap sample_open_ok 0 "out/" (maps registry_ABC) = false /\
    files d' !! "out/e_10_20_0.items.txt"
      = Some ("2;1;42;333;a\=b\;c\\d=x\\y" +:+ endl) /\
    files d' !! "out/e_10_20_0.warps.txt" = Some ("1;0;100;200;1" +:+ endl) /\
    files d' !! "out/e_12_21_0.tiles.txt" = Some EmptyString /\
    files d' !! "out/e_0_0_-1.tiles.txt" = None.
Proof.
  assert (Hloops : forall p, p ∈ maps registry_ABC ->
            loops_end 16 (sample_heap p) /\ (export_fuel (sample_heap p) <= 5)%nat).
  { intros p Hp. simpl in Hp. rewrite !elem_of_cons, elem_of_nil in Hp.
    destruct Hp as [->|[->|[->|[]]]]; (split; [split; vm_compute; reflexivity|]);
      vm_compute; lia. }
  split; [exact Hloops|].
  destruct (exportTo_open_failure sample_heap sample_open_ok 5 "out/" registry_ABC
              (mk_Disk ∅ 0)) as [Hret Htotal].
  destruct (Htotal Hloops) as [d' Hrun].
  change (opened (mk_Disk ∅ 0)) with 0%nat in Hrun.
  assert (Hall : all_open sample_heap sample_open_ok 0 "out/" (maps registry_ABC) = false)
    by (vm_compute; reflexivity).
  rewrite Hall in Hrun. exists d'. split; [exact Hrun|]. split; [exact Hall|].
  vm_compute in Hrun. injection Hrun as <-.
  repeat split; vm_compute; reflexivity.
Defined.

(** Two maps: the count 2, then the record of A, then the record of B. *)
Lemma saveToDisk_index_witness :
  Z.of_nat (length (maps registry_AB)) < 65536 /\
  (forall p, p ∈ maps registry_AB ->
             (String.length (mname_text "map" (sample_heap p)) < 200)%nat) /\
  exists log,
    saveToDisk 2 sample_heap true "map" registry_AB = Saved "map_initmaps" log /\
    mapinitfile log
    = [ Obj 2 2;
        Obj 2 0; Obj 2 10; Obj 2 20; Obj 2 3; Obj 2 2;
        Obj 2 0; Obj 2 12; Obj 2 21; Obj 2 2; Obj 2 2 ].
Proof.
  assert (Hcount : Z.of_nat (length (maps registry_AB)) < 65536) by (simpl; lia).
  assert (Hfit : forall p, p ∈ maps registry_AB ->
            (String.length (mname_text "map" (sample_heap p)) < 200)%nat).
  { intros p Hp. simpl in Hp. rewrite !elem_of_cons, elem_of_nil in Hp.
    destruct Hp as [->|[->|[]]]; vm_compute; lia. }
  split; [exact Hcount|]. split; [exact Hfit|].
  destruct (saveToDisk_index 2 sample_heap "map" registry_AB Hcount Hfit)
    as (log & Hrun & Hfile & _).
  exists log. split; [exact Hrun|exact Hfile].
Defined.

(** With 65536 maps the count written is 0, not the number of maps. *)
Lemma saveToDisk_count_wraps :
  Z.of_nat (length (maps registry_65536)) = 65536 /\
  (exists name log,
     saveToDisk 2 heap_C true "w" registry_65536 = Saved name log /\
     hd_error (mapinitfile log) = Some (Obj 2 0)) /\
  ~ (forall name log,
       saveToDisk 2 heap_C true "w" registry_65536 = Saved name log ->
       mapinitfile log
       = Obj 2 (Z.of_nat (length (maps registry_65536)))
           :: flat_map (fun p => save_record 2 (heap_C p)) (maps registry_65536)).
Proof.
  assert (Hlen : Z.of_nat (length (maps registry_65536)) = 65536).
  { cbn [registry_65536 maps]. rewrite length_map, length_seq. apply Z2Nat.id. lia. }
  destruct (saveToDisk_total 2 heap_C "w" registry_65536) as [log Hrun].
  { intros p _. vm_compute. lia. }
  pose proof (saveToDisk_Saved 2 heap_C "w" registry_65536 _ log Hrun) as (_ & Hfile & _).
  rewrite Hlen in Hfile. change (uwrap 16 65536) with 0 in Hfile.
  split; [exact Hlen|]. split.
  - eexists _, log. split; [exact Hrun|]. by rewrite Hfile.
  - intros Hclaim. specialize (Hclaim _ log Hrun).
    rewrite Hfile, Hlen in Hclaim. discriminate Hclaim.
Qed.

(** The names of the three sample maps, each number in six columns. *)
Lemma saveToDisk_Save_names_witness :
  (forall p, p ∈ maps registry_ABC ->
             (String.length (mname_text "map" (sample_heap p)) < 200)%nat) /\
  exists name log,
    saveToDisk 2 sample_heap true "map" registry_ABC = Saved name log /\
    Save_calls log
    = [ (1%positive, "map_     0_    10_    20");
        (2%positive, "map_     0_    12_    21");
        (3%positive, "map_    -1_     0_     0") ].
Proof.
  assert (Hfit : forall p, p ∈ maps registry_ABC ->
            (String.length (mname_text "map" (sample_heap p)) < 200)%nat).
  { intros p Hp. simpl in Hp. rewrite !elem_of_cons, elem_of_nil in Hp.
    destruct Hp as [->|[->|[->|[]]]]; vm_compute; lia. }
  split; [exact Hfit|].
  destruct (saveToDisk_Save_names 2 sample_heap "map" registry_ABC Hfit)
    as ((name & log & Hrun & Hcalls) & _).
  exists name, log. split; [exact Hrun|].
  rewrite Hcalls. vm_compute. reflexivity.
Defined.

(** For map A and the prefix [map] the name given to [Save] is
    [map_     0_    10_    20], not [map_0_10_20]. *)
Lemma saveToDisk_name_padded :
  spec_mname "map" (sample_heap 1%positive) = "map_0_10_20" /\
  saveToDisk 2 sample_heap true "map" registry_A
  = Saved "map_initmaps"
      {| mapinitfile := [Obj 2 1; Obj 2 0; Obj 2 10; Obj 2 20; Obj 2 3; Obj 2 2];
         Save_calls := [(1%positive, "map_     0_    10_    20")] |} /\
  ~ (forall name log,
       saveToDisk 2 sample_heap true "map" registry_A = Saved name log ->
       Save_calls log
       = List.map (fun p => (p, spec_mname "map" (sample_heap p))) (maps registry_A)).
Proof.
  split; [vm_compute; reflexivity|].
  assert (Hrun : saveToDisk 2 sample_heap true "map" registry_A
                 = Saved "map_initmaps"
                     {| mapinitfile := [Obj 2 1; Obj 2 0; Obj 2 10; Obj 2 20; Obj 2 3; Obj 2 2];
                        Save_calls := [(1%positive, "map_     0_    10_    20")] |})
    by (vm_compute; reflexivity).
  split; [exact Hrun|].
  intros Hclaim. specialize (Hclaim _ _ Hrun). vm_compute in Hclaim. discriminate Hclaim.
Qed.

(** ** More of the registry *)

Lemma registry_AB_inserted :
  InsertMap 2 sample_heap 3 registry_A (Some 2%positive) = Some (true, registry_AB).
Proof. vm_compute. reflexivity. Defined.

Lemma registry_AB_reachable : reachable 2 sample_heap sample_clock registry_AB.
Proof.
  apply (reach_InsertMap 2 sample_heap sample_clock registry_A 3
           (Some 2%positive) true registry_AB).
  - exact registry_A_reachable.
  - exact registry_AB_inserted.
Defined.

(** The cell (12, 21) is covered by A and by B: the dictionary holds B. *)
Lemma findMapForPos_last_registered_witness :
  wf_heap 2 sample_heap /\
  reachable 2 sample_heap sample_clock registry_AB /\
  findMapForPos registry_AB (mk_position 12 21 0) = Some 2%positive /\
  last_covering sample_heap registry_AB (mk_position 12 21 0) = Some 2%positive /\
  findMapForPos registry_AB (mk_position 10 20 0) = Some 1%positive.
Proof.
  split; [exact sample_heap_wf|]. split; [exact registry_AB_reachable|].
  destruct (findMapForPos_last_registered 2 sample_heap sample_clock registry_AB
              sample_heap_wf registry_AB_reachable) as (Hlast & _ & _).
  split; [rewrite Hlast; vm_compute; reflexivity|].
  split; [vm_compute; reflexivity|].
  rewrite Hlast. vm_compute. reflexivity.
Defined.

Lemma maps_registered_once_witness :
  wf_heap 2 sample_heap /\
  reachable 2 sample_heap sample_clock registry_AB /\
  NoDup (maps registry_AB).
Proof.
  split; [exact sample_heap_wf|]. split; [exact registry_AB_reachable|].
  exact (proj1 (maps_registered_once 2 sample_heap sample_clock registry_AB
                  sample_heap_wf registry_AB_reachable)).
Defined.

(** B is registered after A: the query around (12, 21) finds A, then B. *)
Lemma region_queries_follow_registration_witness :
  InsertMap 2 sample_heap 3 registry_A (Some 2%positive) = Some (true, registry_AB) /\
  findAllMapsInRangeOf 2 sample_heap registry_AB 1 0 1 1 (mk_position 12 21 0)
  = findAllMapsInRangeOf 2 sample_heap registry_A 1 0 1 1 (mk_position 12 21 0)
      ++ [2%positive] /\
  mapInRangeOf 2 sample_heap (clear registry_AB) (mk_position 11 20 0) 3 2 = false.
Proof.
  split; [exact registry_AB_inserted|].
  destruct (region_queries_follow_registration 2 sample_heap 3 registry_A
              (Some 2%positive) registry_AB registry_AB_inserted)
    as (p & Hp & Hall & _ & _ & Hclear).
  injection Hp as <-. split.
  - rewrite (Hall 1 0 1 1 (mk_position 12 21 0)). reflexivity.
  - apply Hclear.
Defined.

(** The map from x = 32766 to x = 32767 with 16-bit coordinates. *)
Lemma InsertMap_never_returns_witness :
  wf_Map 2 (heap_edge 1%positive) /\
  (1%positive ∉ maps empty_WorldMap) /\
  Min_X (heap_edge 1%positive) <= Max_X (heap_edge 1%positive) /\
  Max_X (heap_edge 1%positive) = smax (coord_bits 2) /\
  InsertMap 2 heap_edge 1000 empty_WorldMap (Some 1%positive) = None.
Proof.
  assert (Hwf : wf_Map 2 (heap_edge 1%positive))
    by (unfold wf_Map, in_signed, smin, smax, coord_bits; simpl; lia).
  assert (Hnew : 1%positive ∉ maps empty_WorldMap) by (simpl; apply not_elem_of_nil).
  assert (Hx : Min_X (heap_edge 1%positive) <= Max_X (heap_edge 1%positive))
    by (simpl; lia).
  assert (Hmax : Max_X (heap_edge 1%positive) = smax (coord_bits 2)) by reflexivity.
  repeat (split; [assumption|]).
  exact (InsertMap_never_returns 2 heap_edge empty_WorldMap 1%positive Hwf Hnew Hx
           (or_introl Hmax) 1000%nat).
Defined.

(** ** More of the aging sweep *)

Lemma allMapsAged_time_box_witness :
  (ageIndex registry_ABC <= length (maps registry_ABC))%nat /\
  allMapsAged sample_clock registry_ABC (mk_AgeEnv 0 [])
  = (false, registry_ABC_mid, mk_AgeEnv 4 [1; 2]%positive) /\
  exists n,
    aged (mk_AgeEnv 4 [1; 2]%positive) = [] ++ take n (drop 0 (maps registry_ABC)) /\
    milliseconds 10 <= sample_clock (0 + 1 + n) - sample_clock 0.
Proof.
  assert (Hcur : (ageIndex registry_ABC <= length (maps registry_ABC))%nat) by (simpl; lia).
  assert (Hcall : allMapsAged sample_clock registry_ABC (mk_AgeEnv 0 [])
                  = (false, registry_ABC_mid, mk_AgeEnv 4 [1; 2]%positive))
    by (vm_compute; reflexivity).
  split; [exact Hcur|]. split; [exact Hcall|].
  destruct (allMapsAged_time_box sample_clock registry_ABC (mk_AgeEnv 0 []) false
              registry_ABC_mid (mk_AgeEnv 4 [1; 2]%positive) Hcur Hcall)
    as (n & _ & Haged & _ & Hfalse & _).
  destruct (Hfalse eq_refl) as (_ & Hpast & _).
  exists n. split; [exact Haged|exact Hpast].
Defined.

Lemma allMapsAged_completes_within_budget_witness :
  (ageIndex registry_ABC_mid <= length (maps registry_ABC_mid))%nat /\
  exists e',
    allMapsAged still_clock registry_ABC_mid (mk_AgeEnv 0 [])
    = (true, registry_ABC, e') /\
    aged e' = [3%positive] /\ clock_reads e' = 2%nat.
Proof.
  assert (Hcur : (ageIndex registry_ABC_mid <= length (maps registry_ABC_mid))%nat)
    by (simpl; lia).
  split; [exact Hcur|].
  destruct (allMapsAged_completes_within_budget still_clock registry_ABC_mid
              (mk_AgeEnv 0 []) Hcur) as (e' & Hcall & Haged & Hreads).
  { intros j _. unfold still_clock, milliseconds. lia. }
  exists e'. split; [exact Hcall|]. split; [exact Haged|exact Hreads].
Defined.

Lemma allMapsAged_budget_spent_at_once_witness :
  (ageIndex registry_ABC < length (maps registry_ABC))%nat /\
  milliseconds 10 <= slow_clock (0 + 1) - slow_clock 0 /\
  allMapsAged slow_clock registry_ABC (mk_AgeEnv 0 [])
  = (false, registry_ABC, mk_AgeEnv 2 []).
Proof.
  assert (Hcur : (ageIndex registry_ABC < length (maps registry_ABC))%nat) by (simpl; lia).
  assert (Hpast : milliseconds 10 <= slow_clock (0 + 1) - slow_clock 0)
    by (vm_compute; discriminate).
  split; [exact Hcur|]. split; [exact Hpast|].
  exact (allMapsAged_budget_spent_at_once slow_clock registry_ABC (mk_AgeEnv 0 [])
           Hcur Hpast).
Defined.

Lemma allMapsAged_cursor_at_end_witness :
  (length (maps registry_C_stale) <= ageIndex registry_C_stale)%nat /\
  allMapsAged sample_clock registry_C_stale (mk_AgeEnv 0 [])
  = (true, set_ageIndex 0 registry_C_stale, mk_AgeEnv 1 []).
Proof.
  assert (Hcur : (length (maps registry_C_stale) <= ageIndex registry_C_stale)%nat)
    by (simpl; lia).
  split; [exact Hcur|].
  exact (proj1 (allMapsAged_cursor_at_end sample_clock registry_C_stale (mk_AgeEnv 0 []) Hcur)).
Defined.

(** Three maps, two of them aged; [clear]; the map at 3 registered again:
    the next call returns true and has aged nothing. *)
Lemma allMapsAged_after_clear_witness :
  (1 <= ageIndex registry_ABC_mid)%nat /\
  InsertMap 2 sample_heap 3 (clear registry_ABC_mid) (Some 3%positive)
  = Some (true, registry_C_stale) /\
  allMapsAged sample_clock registry_C_stale (mk_AgeEnv 0 [])
  = (true, set_ageIndex 0 registry_C_stale, mk_AgeEnv 1 []).
Proof.
  assert (Hcur : (1 <= ageIndex registry_ABC_mid)%nat) by (simpl; lia).
  assert (Hrun : InsertMap 2 sample_heap 3 (clear registry_ABC_mid) (Some 3%positive)
                 = Some (true, registry_C_stale)) by (vm_compute; reflexivity).
  split; [exact Hcur|]. split; [exact Hrun|].
  destruct (allMapsAged_after_clear 2 sample_heap sample_clock registry_ABC_mid 3
              3%positive registry_C_stale (mk_AgeEnv 0 []) Hcur Hrun)
    as (_ & _ & Hcall & _).
  exact Hcall.
Defined.

Lemma registry_AB_NoDup : NoDup (maps registry_AB).
Proof.
  simpl. repeat (apply NoDup_cons; split; [rewrite ?elem_of_cons, elem_of_nil; lia|]).
  apply NoDup_nil. exact I.
Defined.

(** A and B registered; one call ages A and runs out of budget; the map at
    3 is registered; the next call ages B and the new map and returns
    true. *)
Lemma sweep_with_registration_witness :
  ageIndex registry_AB = 0%nat /\
  NoDup (maps registry_AB) /\
  run_calls 2 sample_heap sample_clock2
    [Call_allMapsAged; Call_InsertMap 3 (Some 3%positive); Call_allMapsAged]
    registry_AB (mk_AgeEnv 0 [])
  = Some ([false; true], registry_ABC, mk_AgeEnv 6 [1; 2; 3]%positive) /\
  exists sweeps,
    [1; 2; 3]%positive = [] ++ mjoin sweeps ++ take 0 (maps registry_ABC) /\
    length sweeps = 1%nat.
Proof.
  assert (Hrun : run_calls 2 sample_heap sample_clock2
            [Call_allMapsAged; Call_InsertMap 3 (Some 3%positive); Call_allMapsAged]
            registry_AB (mk_AgeEnv 0 [])
          = Some ([false; true], registry_ABC, mk_AgeEnv 6 [1; 2; 3]%positive))
    by (vm_compute; reflexivity).
  split; [reflexivity|]. split; [exact registry_AB_NoDup|]. split; [exact Hrun|].
  destruct (sweep_with_registration 2 sample_heap sample_clock2 _ registry_AB
              (mk_AgeEnv 0 []) _ registry_ABC _ eq_refl registry_AB_NoDup Hrun)
    as (_ & _ & _ & sweeps & Haged & Hlen & _).
  exists sweeps. split; [exact Haged|exact Hlen].
Defined.

(** ** More of the index file *)

Lemma saveToDisk_count_modulo_witness :
  saveToDisk 2 sample_heap true "map" registry_AB
  = Saved "map_initmaps"
      {| mapinitfile :=
           [Obj 2 2; Obj 2 0; Obj 2 10; Obj 2 20; Obj 2 3; Obj 2 2;
            Obj 2 0; Obj 2 12; Obj 2 21; Obj 2 2; Obj 2 2];
         Save_calls :=
           [(1%positive, "map_     0_    10_    20");
            (2%positive, "map_     0_    12_    21")] |} /\
  file_size
    [Obj 2 2; Obj 2 0; Obj 2 10; Obj 2 20; Obj 2 3; Obj 2 2;
     Obj 2 0; Obj 2 12; Obj 2 21; Obj 2 2; Obj 2 2]
  = 2 + Z.of_nat (length (maps registry_AB)) * (3 * Z.pos 2 + 4).
Proof.
  assert (Hrun : saveToDisk 2 sample_heap true "map" registry_AB
    = Saved "map_initmaps"
        {| mapinitfile :=
             [Obj 2 2; Obj 2 0; Obj 2 10; Obj 2 20; Obj 2 3; Obj 2 2;
              Obj 2 0; Obj 2 12; Obj 2 21; Obj 2 2; Obj 2 2];
           Save_calls :=
             [(1%positive, "map_     0_    10_    20");
              (2%positive, "map_     0_    12_    21")] |})
    by (vm_compute; reflexivity).
  split; [exact Hrun|].
  destruct (saveToDisk_count_modulo 2 sample_heap "map" registry_AB _ _ Hrun)
    as (_ & _ & _ & _ & Hsize & _).
  exact Hsize.
Defined.

Lemma saveToDisk_names_tell_maps_witness :
  saveToDisk 2 sample_heap true "map" registry_AB
  = Saved "map_initmaps"
      {| mapinitfile :=
           [Obj 2 2; Obj 2 0; Obj 2 10; Obj 2 20; Obj 2 3; Obj 2 2;
            Obj 2 0; Obj 2 12; Obj 2 21; Obj 2 2; Obj 2 2];
         Save_calls :=
           [(1%positive, "map_     0_    10_    20");
            (2%positive, "map_     0_    12_    21")] |} /\
  read_padded (pad6 (Min_X (sample_heap 2%positive))) = Some 12.
Proof.
  assert (Hrun : saveToDisk 2 sample_heap true "map" registry_AB
    = Saved "map_initmaps"
        {| mapinitfile :=
             [Obj 2 2; Obj 2 0; Obj 2 10; Obj 2 20; Obj 2 3; Obj 2 2;
              Obj 2 0; Obj 2 12; Obj 2 21; Obj 2 2; Obj 2 2];
           Save_calls :=
             [(1%positive, "map_     0_    10_    20");
              (2%positive, "map_     0_    12_    21")] |})
    by (vm_compute; reflexivity).
  split; [exact Hrun|].
  destruct (saveToDisk_names_tell_maps 2 sample_heap "map" registry_AB _ _ Hrun)
    as (_ & Hname).
  destruct (Hname 1%nat 2%positive "map_     0_    12_    21" eq_refl)
    as (_ & _ & Hx & _).
  exact Hx.
Defined.

(** ** More of the export *)

Lemma export_rows_row_major_witness :
  exists st',
    export_rows 10 map_A (export_minX map_A) (export_minY map_A) (header_streams map_A)
    = Some st' /\
    fieldsf st'
    = fieldsf (header_streams map_A)
        +:+ string_concat (List.map (tiles_line map_A) (export_cells map_A)).
Proof.
  destruct (export_rows 10 map_A (export_minX map_A) (export_minY map_A)
              (header_streams map_A)) as [st'|] eqn:Hrun;
    [|exfalso; vm_compute in Hrun; discriminate].
  exists st'. split; [reflexivity|].
  exact (proj1 (export_rows_row_major 10 map_A (header_streams map_A) st' Hrun)).
Defined.

Lemma exportTo_touches_map_files_witness :
  exists b d',
    exportTo sample_heap all_open_ok 50 "out/" registry_AB (mk_Disk ∅ 0) = Some (b, d') /\
    files d' !! "elsewhere.txt" = None.
Proof.
  destruct (exportTo sample_heap all_open_ok 50 "out/" registry_AB (mk_Disk ∅ 0))
    as [[b d']|] eqn:Hrun; [|exfalso; vm_compute in Hrun; discriminate].
  exists b, d'. split; [reflexivity|].
  destruct (exportTo_touches_map_files sample_heap all_open_ok 50 "out/" registry_AB
              (mk_Disk ∅ 0) b d' Hrun) as (_ & Hother & _).
  rewrite Hother; [reflexivity|].
  intros q Hq. simpl in Hq.
  apply elem_of_cons in Hq as [->|Hq];
    [|apply list_elem_of_singleton in Hq as ->];
    intros Hin; vm_compute in Hin;
    repeat (apply elem_of_cons in Hin as [Hin|Hin]; [discriminate Hin|]);
    by apply elem_of_nil in Hin.
Defined.

Lemma exportTo_writes_map_text_witness :
  c_str "out/" = "out/" /\
  maps registry_AB = [] ++ 1%positive :: [2%positive] /\
  exists d',
    exportTo sample_heap all_open_ok 50 "out/" registry_AB (mk_Disk ∅ 0)
    = Some (true, d') /\
    files d' !! warps_path (map_base sample_heap "out/" 1%positive)
    = Some (string_concat
              (List.map (warps_line (sample_heap 1%positive))
                 (export_cells (sample_heap 1%positive)))).
Proof.
  split; [reflexivity|]. split; [reflexivity|].
  destruct (exportTo sample_heap all_open_ok 50 "out/" registry_AB (mk_Disk ∅ 0))
    as [[[] d']|] eqn:Hrun; [|exfalso; vm_compute in Hrun; discriminate..].
  exists d'. split; [reflexivity|].
  assert (Hlater : forall q, q ∈ [2%positive] ->
            map_base sample_heap "out/" q <> map_base sample_heap "out/" 1%positive).
  { intros q Hq. apply list_elem_of_singleton in Hq as ->. vm_compute. discriminate. }
  destruct (exportTo_writes_map_text sample_heap all_open_ok 50 "out/" registry_AB
              [] 1%positive [2%positive] (mk_Disk ∅ 0) d' eq_refl eq_refl Hlater Hrun)
    as (_ & _ & Hwarps).
  exact Hwarps.
Defined.

(** A and B differ in their least corner: the files of the two are apart. *)
Lemma exportTo_files_shared_witness :
  c_str "out/" = "out/" /\
  map_paths sample_heap "out/" 1%positive <> map_paths sample_heap "out/" 2%positive /\
  NoDup (map_paths sample_heap "out/" 1%positive).
Proof.
  split; [reflexivity|].
  destruct (exportTo_files_shared sample_heap "out/" 1%positive 2%positive eq_refl)
    as (Hsame & _ & Hnd).
  split; [|exact Hnd].
  intros Heq. apply Hsame in Heq as (Hx & _). vm_compute in Hx. discriminate.
Defined.

(** The map from x = 32766 to x = 32767, registered with coordinates
    wider than 16 bits. *)
Lemma exportTo_never_returns_witness :
  maps registry_edge = [] ++ 1%positive :: [] /\
  exportTo_from heap_edge all_open_ok 1000 "out/" [] (mk_Disk ∅ 0)
  = Some (true, mk_Disk ∅ 0) /\
  streams_good all_open_ok (opened (mk_Disk ∅ 0)) (map_base heap_edge "out/" 1%positive)
  = true /\
  export_minY (heap_edge 1%positive) <= GetMaxY (heap_edge 1%positive) /\
  export_minX (heap_edge 1%positive) <= GetMaxX (heap_edge 1%positive) /\
  32767 <= GetMaxX (heap_edge 1%positive) /\
  exportTo heap_edge all_open_ok 1000 "out/" registry_edge (mk_Disk ∅ 0) = None.
Proof.
  assert (Hy : export_minY (heap_edge 1%positive) <= GetMaxY (heap_edge 1%positive))
    by (vm_compute; discriminate).
  assert (Hx : export_minX (heap_edge 1%positive) <= GetMaxX (heap_edge 1%positive))
    by (vm_compute; discriminate).
  assert (Hmax : 32767 <= GetMaxX (heap_edge 1%positive))
    by (vm_compute; discriminate).
  split; [reflexivity|]. split; [reflexivity|]. split; [reflexivity|].
  split; [exact Hy|]. split; [exact Hx|]. split; [exact Hmax|].
  exact (exportTo_never_returns heap_edge all_open_ok 1000 "out/" registry_edge
           [] 1%positive [] (mk_Disk ∅ 0) (mk_Disk ∅ 0) eq_refl eq_refl eq_refl Hy
           (or_intror (conj Hx Hmax))).
Defined.
